(** * Real-time message fan-out of the chat application

    The server side is the Socket.IO connection handler of the backend
    ([io.on('connection', ...)] with its four listeners ['setup'],
    ['join chat'], ['new message'] and ['disconnect']); the client side is
    the listener table of [SingleChat.js].  The handlers are embedded as
    computations over an explicit server state; the state is the part of the
    Socket.IO server that the handlers read and write through [socket.join],
    [socket.emit] and [socket.to(room).emit]: the live sockets with the
    packets written to each of them, and the two maps of the in-memory
    adapter ([rooms] and [sids]).  Console output is not part of the state.
    A listener that throws is not caught by anything in the server; the
    computations record the exception and the state reached by then.

    In the vocabulary of the specification: a connection is a socket,
    registering it is its connection and unregistering its disconnect,
    authenticating is ['setup'], [join] is ['join chat'], [sendMessage] is
    ['new message'], [broadcast(r, e, exclude = c)] is
    [socket.to(r).emit(e)] issued on the socket [c], and the outbound queue
    of a connection is the sequence of packets written to its socket. *)

From stdpp Require Import gmap strings list fin_maps fin_sets pretty.

#[local] Set Warnings "-clear-no-such-hyp".

(** ** Data *)

Abbreviation SocketId := string.
Abbreviation Room := string.

(** The objects the frontend sends: [user] from the chat context with
    ['setup'], and the populated message returned by [POST /api/message]
    with ['new message'].  Only the fields the handlers read are kept,
    plus the message content. *)
Record User := mkUser { _id : string }.

#[global] Instance User_eq_dec : EqDecision User.
Proof. solve_decision. Defined.

Record Chat := mkChat { chat_id : string; users : list User }.

Record MessageData := mkMessage {
  sender : User;
  content : string;
  chat : Chat
}.

(** ** What a client can send

    A listener is called with whatever the client put into the packet.
    Where a handler reads a property of an object, the client may have
    sent [null], or nothing at all, in its place: that is [None], and the
    read throws.  For [users], on which the handler calls [forEach],
    [None] is anything that is not an array.  Ids and room names are
    strings, as the application's are; users and senders that are not
    objects with such an id are left out. *)
Module Received.

Record Chat := mkChat {
  chat_id : string;
  users : option (list (option User))
}.

Record MessageData := mkMessage {
  sender : option User;
  content : string;
  chat : option Chat
}.

#[global] Instance Chat_eq_dec : EqDecision Chat.
Proof. solve_decision. Defined.

#[global] Instance MessageData_eq_dec : EqDecision MessageData.
Proof. solve_decision. Defined.

End Received.

(** The populated message as it travels in a packet. *)
Definition sent (messageData : MessageData) : Received.MessageData :=
  Received.mkMessage (Some (sender messageData)) (content messageData)
    (Some (Received.mkChat (chat_id (chat messageData))
             (Some (Some <$> users (chat messageData))))).

(** What is emitted towards a client: an event name and its argument. *)
Inductive Arg :=
| NoArg
| MsgArg (messageData : Received.MessageData).

#[global] Instance Arg_eq_dec : EqDecision Arg.
Proof. solve_decision. Defined.

Record Packet := mkPacket { ev : string; arg : Arg }.

#[global] Instance Packet_eq_dec : EqDecision Packet.
Proof. solve_decision. Defined.

(** ** Server state *)

Record Server := mkServer {
  (** [io.sockets.sockets]: the connected sockets, each with the packets
      written to its client so far, oldest first *)
  sockets : gmap SocketId (list Packet);
  (** [adapter.rooms]: room name to the ids of the sockets in it *)
  rooms : gmap Room (gset SocketId);
  (** [adapter.sids]: socket id to the rooms it has joined *)
  sids : gmap SocketId (gset Room)
}.

Definition init : Server := mkServer ∅ ∅ ∅.

Definition membersOf (st : Server) (room : Room) : gset SocketId :=
  default ∅ (rooms st !! room).

Definition joinedRooms (st : Server) (id : SocketId) : gset Room :=
  default ∅ (sids st !! id).

Definition connected (st : Server) (id : SocketId) : Prop :=
  id ∈ dom (sockets st).

#[global] Instance connected_dec st id : Decision (connected st id).
Proof. unfold connected. apply _. Defined.

(** The outbound queue of a socket; empty for an id that is not connected. *)
Definition queue (st : Server) (id : SocketId) : list Packet :=
  default [] (sockets st !! id).

(** ** Computations

    A JavaScript call either completes normally, with a value and the
    state it leaves, or throws, and then leaves the state it had reached.
    No listener catches what it throws and neither does the server, so
    an exception ends whatever was running. *)

Inductive Exception :=
(** a [TypeError]: [reading] is the property read on [null] or
    [undefined] *)
| TypeError (reading : string)
(** [new Error(message)] *)
| PlainError (message : string).

Inductive Completion (A : Type) : Type :=
| Normal (a : A) (st : Server)
| Thrown (exn : Exception) (st : Server).
Arguments Normal {A} a st.
Arguments Thrown {A} exn st.

Definition M (A : Type) : Type := Server → Completion A.

#[global] Instance M_ret : MRet M := λ A a st, Normal a st.

#[global] Instance M_bind : MBind M := λ A B k m st,
  match m st with
  | Normal a st' => k a st'
  | Thrown exn st' => Thrown exn st'
  end.

Definition throw {A} (exn : Exception) : M A := λ st, Thrown exn st.

(** The object whose property [prop] is read: [v.prop] throws when [v] is
    [null] or [undefined]. *)
Definition reading {A} (prop : string) (v : option A) : M A :=
  match v with
  | Some object => mret object
  | None => throw (TypeError prop)
  end.

(** The state a computation leaves, whether it returns or throws. *)
Definition state_of {A} (c : Completion A) : Server :=
  match c with
  | Normal _ st | Thrown _ st => st
  end.

(** [xs.forEach(f)] *)
Fixpoint forEach {A} (xs : list A) (f : A → M unit) : M unit :=
  match xs with
  | [] => mret tt
  | x :: xs' => f x ;; forEach xs' f
  end.

(** ** The Socket.IO primitives the handlers call *)

Module Adapter.

(** [addAll(id, {room})] *)
Definition addAll (id : SocketId) (room : Room) : M unit := λ st,
  Normal tt
    {| sockets := sockets st;
       rooms := <[room := {[id]} ∪ membersOf st room]> (rooms st);
       sids := <[id := {[room]} ∪ joinedRooms st id]> (sids st) |}.

(** [_del(room, id)]: an emptied room is deleted *)
Definition del (id : SocketId) (room : Room)
    (rms : gmap Room (gset SocketId)) : gmap Room (gset SocketId) :=
  match rms !! room with
  | Some ids =>
      if decide (ids ∖ {[id]} = ∅) then delete room rms
      else <[room := ids ∖ {[id]}]> rms
  | None => rms
  end.

(** [delAll(id)]: leaves every room listed in [sids[id]] *)
Definition delAll (id : SocketId) : M unit := λ st,
  match sids st !! id with
  | None => Normal tt st
  | Some rs =>
      Normal tt
        {| sockets := sockets st;
           rooms := set_fold (del id) (rooms st) rs;
           sids := delete id (sids st) |}
  end.

(** [broadcast(packet, {rooms: {room}, except: {exceptRoom}})]: the
    packet is written to every connected socket of [room] that is not
    in [exceptRoom]. *)
Definition broadcast (p : Packet) (room exceptRoom : Room) : M unit := λ st,
  let except := membersOf st exceptRoom in
  let ids := membersOf st room in
  Normal tt
    {| sockets :=
         map_imap (λ id q, Some (if decide (id ∈ ids ∖ except)
                                 then q ++ [p] else q)) (sockets st);
       rooms := rooms st;
       sids := sids st |}.

End Adapter.

(** The event names [emit] refuses. *)
Definition RESERVED_EVENTS : list string :=
  ["connect"; "connect_error"; "disconnect"; "disconnecting";
   "newListener"; "removeListener"].

Definition quoted (s : string) : string :=
  String (Ascii.ascii_of_nat 34) (s +:+ String (Ascii.ascii_of_nat 34) "").

(** [new Error(`"${ev}" is a reserved event name`)] *)
Definition reserved (e : string) : Exception :=
  PlainError (quoted e +:+ " is a reserved event name").

(** [socket.join(room)] *)
Definition socket_join (socket : SocketId) (room : Room) : M unit :=
  Adapter.addAll socket room.

(** [socket.emit(ev, arg)]: to the client of this socket; returns [true] *)
Definition socket_emit (socket : SocketId) (e : string) (a : Arg) : M bool :=
  λ st,
    if decide (e ∈ RESERVED_EVENTS) then Thrown (reserved e) st
    else
      Normal true
        {| sockets := alter (λ q, q ++ [mkPacket e a]) socket (sockets st);
           rooms := rooms st;
           sids := sids st |}.

(** [socket.to(room).emit(ev, arg)]: a broadcast to [room] that excepts
    the room named by the socket's own id; returns [true] *)
Definition socket_to_emit (socket : SocketId) (room : Room) (e : string)
    (a : Arg) : M bool :=
  λ st,
    if decide (e ∈ RESERVED_EVENTS) then Thrown (reserved e) st
    else (Adapter.broadcast (mkPacket e a) room socket ≫= λ _, mret true) st.

(** ** The handlers of [io.on('connection', (socket) => ...)] *)

(** [socket.on('setup', (userData) => ...)] *)
Definition setup (socket : SocketId) (userData : option User) : M unit :=
  userData ← reading "_id" userData;
  socket_join socket (_id userData) ;;
  socket_emit socket "connected" NoArg ;;
  mret tt.

(** [socket.on('join chat', (roomId) => ...)] *)
Definition join_chat (socket : SocketId) (roomId : Room) : M unit :=
  socket_join socket roomId.

(** [socket.on('new message', (messageData) => ...)] *)
Definition new_message (socket : SocketId)
    (messageData : option Received.MessageData) : M unit :=
  messageData ← reading "chat" messageData;
  chat ← reading "users" (Received.chat messageData);
  users ← reading "forEach" (Received.users chat);
  forEach users (λ user,
    user ← reading "_id" user;
    sender ← reading "_id" (Received.sender messageData);
    if negb (String.eqb (_id user) (_id sender))
    then socket_to_emit socket (_id user) "message received"
           (MsgArg messageData) ;; mret tt
    else mret tt).

(** [socket.on('disconnect', () => ...)]: only logs *)
Definition disconnect (socket : SocketId) : M unit := mret tt.

(** The callback of the loop in ['new message'], for a message
    [messageData] read with the sender [sender]. *)
Definition each_user (socket : SocketId) (messageData : Received.MessageData)
    (sender : option User) (user : option User) : M unit :=
  user ← reading "_id" user;
  sender ← reading "_id" sender;
  if negb (String.eqb (_id user) (_id sender))
  then socket_to_emit socket (_id user) "message received"
         (MsgArg messageData) ;; mret tt
  else mret tt.

(** ** The server as a transition system *)

(** What a connected client can send.  [Unlistened name] is an event for
    which the connection handler registers no listener (the frontend
    sends ["typing"] and ["stop typing"]). *)
Inductive ClientEvent :=
| Setup (userData : option User)
| JoinChat (roomId : Room)
| NewMessage (messageData : option Received.MessageData)
| Unlistened (name : string).

Inductive Input :=
| Connect (id : SocketId)
| Emit (id : SocketId) (e : ClientEvent)
| Disconnect (id : SocketId).

(** A new socket is stored under its id and joins the room of that name;
    then the ['connection'] listener runs, which only registers the
    listeners of [on_event]. *)
Definition on_connect (id : SocketId) : M unit := λ st,
  socket_join id id
    {| sockets := <[id := []]> (sockets st);
       rooms := rooms st;
       sids := sids st |}.

Definition on_event (socket : SocketId) (e : ClientEvent) : M unit :=
  match e with
  | Setup userData => setup socket userData
  | JoinChat roomId => join_chat socket roomId
  | NewMessage messageData => new_message socket messageData
  | Unlistened _ => mret tt
  end.

(** Closing a socket: it leaves all its rooms and is removed from the
    server, then its ['disconnect'] listener runs. *)
Definition on_close (id : SocketId) : M unit :=
  Adapter.delAll id ;;
  (λ st, Normal tt {| sockets := delete id (sockets st);
                      rooms := rooms st;
                      sids := sids st |}) ;;
  disconnect id.

(** Socket ids are unique among connected sockets, and only a connected
    socket has listeners: other inputs reach no handler. *)
Definition step (i : Input) : M unit := λ st,
  match i with
  | Connect id =>
      if decide (connected st id) then Normal tt st else on_connect id st
  | Emit id e =>
      if decide (connected st id) then on_event id e st else Normal tt st
  | Disconnect id =>
      if decide (connected st id) then on_close id st else Normal tt st
  end.

(** The inputs are handled one after the other; the first exception ends
    the server, and the inputs after it are not handled. *)
Definition run (tr : list Input) : M unit := forEach tr step.

(** ** The frontend listeners of [SingleChat.js]

    The file holds both sides of a merge; each side is a listener table.
    Listeners inside comments are not registered. *)

Inductive Branch := HEAD | Coding11_12.

Record Client := mkClient {
  messages : list Received.MessageData;
  socketConnected : bool;
  isTyping : bool;
  selectedChatCompare : option Chat
}.

(** The body shared by the message listeners: the message is appended
    when its chat is the selected one.  (One side appends to the
    [messages] of the render that registered the listener, the other to
    the current ones; the difference does not show in one step.)  With
    a chat selected, a message without chat makes the read of
    [chat._id] throw, which ends the listener. *)
Definition receive_message (a : Arg) (c : Client) : Client :=
  match a, selectedChatCompare c with
  | MsgArg newMessageRecieved, Some selected =>
      match Received.chat newMessageRecieved with
      | Some chat =>
          if negb (String.eqb (chat_id selected) (Received.chat_id chat))
          then c
          else mkClient (messages c ++ [newMessageRecieved])
                 (socketConnected c) (isTyping c) (selectedChatCompare c)
      | None => c
      end
  | _, _ => c
  end.

Definition setSocketConnected (b : bool) (c : Client) : Client :=
  mkClient (messages c) b (isTyping c) (selectedChatCompare c).

Definition setIsTyping (b : bool) (c : Client) : Client :=
  mkClient (messages c) (socketConnected c) b (selectedChatCompare c).

(** The [socket.on(name, listener)] registrations of each side. *)
Definition listeners (b : Branch) : list (string * (Arg → Client → Client)) :=
  match b with
  | HEAD =>
      [("connected", λ _, setSocketConnected true);
       ("typing", λ _, setIsTyping true);
       ("stop typing", λ _, setIsTyping false);
       ("message recieved", receive_message)]
  | Coding11_12 =>
      [("connected", λ _, setSocketConnected true);
       ("new message", receive_message)]
  end.

(** A packet from the server runs every listener registered under its
    event name, in registration order. *)
Definition client_receive (b : Branch) (p : Packet) (c : Client) : Client :=
  fold_left (λ c' l, if String.eqb (fst l) (ev p) then snd l (arg p) c' else c')
    (listeners b) c.

(** The listeners a packet triggers. *)
Definition triggered (b : Branch) (p : Packet) : list string :=
  fst <$> filter (λ l, fst l = ev p) (listeners b).

(** ** Notions used in the statements *)

(** The adapter and the socket table agree: a room lists exactly the
    sockets that have joined it, only connected sockets have joined
    rooms, and a connected socket is in the room named by its id. *)
Record consistent (st : Server) : Prop := {
  members_joined : ∀ r id, id ∈ membersOf st r ↔ r ∈ joinedRooms st id;
  joined_connected : ∀ r id, r ∈ joinedRooms st id → connected st id;
  own_room : ∀ id, connected st id → id ∈ joinedRooms st id
}.

Definition message_packet (messageData : MessageData) : Packet :=
  mkPacket "message received" (MsgArg (sent messageData)).

(** [user] is a listed user other than the sender whose room holds [m],
    and [m] is not excepted as a member of the emitting socket's room. *)
Definition recipient (st : Server) (socket : SocketId)
    (messageData : MessageData) (m : SocketId) (user : User) : Prop :=
  _id user ≠ _id (sender messageData) ∧
  m ∈ membersOf st (_id user) ∖ membersOf st socket.

#[global] Instance recipient_dec st socket messageData m user :
  Decision (recipient st socket messageData m user).
Proof. unfold recipient. apply _. Defined.

(** How many copies of a message the handler writes to [m]. *)
Definition copies (st : Server) (socket : SocketId)
    (messageData : MessageData) (m : SocketId) : nat :=
  length (filter (recipient st socket messageData m)
            (users (chat messageData))).

(** [n id] copies of [p] appended to the queue of each connected [id]. *)
Definition deliver (p : Packet) (n : SocketId → nat) (st : Server) : Server :=
  {| sockets := map_imap (λ id q, Some (q ++ replicate (n id) p)) (sockets st);
     rooms := rooms st;
     sids := sids st |}.

(** The event makes its socket join [r]: the two handlers that call
    [socket.join]. *)
Definition joins (r : Room) (e : ClientEvent) : Prop :=
  match e with
  | Setup (Some userData) => _id userData = r
  | JoinChat roomId => roomId = r
  | Setup None | NewMessage _ | Unlistened _ => False
  end.

#[global] Instance joins_dec r e : Decision (joins r e).
Proof. destruct e as [[?|]| | |]; simpl; apply _. Defined.

(** The input is a ['join chat'] for room [r] from socket [m]. *)
Definition is_join (m : SocketId) (r : Room) (i : Input) : Prop :=
  match i with
  | Emit id (JoinChat roomId) => id = m ∧ roomId = r
  | _ => False
  end.

#[global] Instance is_join_dec m r i : Decision (is_join m r i).
Proof. destruct i as [|? []|]; simpl; apply _. Defined.

(** Whether socket [m], on its current connection, has sent ['setup']
    for the user id [uid] along the trace [tr] run from [st]; [done] is
    the answer before the trace. *)
Fixpoint setup_done (m : SocketId) (uid : string) (tr : list Input)
    (st : Server) (done : bool) : bool :=
  match tr with
  | [] => done
  | i :: tr' =>
      let done' :=
        match i with
        | Emit id (Setup (Some userData)) =>
            if decide (id = m ∧ _id userData = uid ∧ connected st m)
            then true else done
        | Disconnect id => if decide (id = m) then false else done
        | _ => done
        end in
      setup_done m uid tr' (state_of (step i st)) done'
  end.

(** The state a trace leads to from the empty server: the state after
    its last input, or the one in which an exception ended the server. *)
Definition final (tr : list Input) : Server := state_of (run tr init).

(** The payloads on which the ['new message'] listener runs to its end:
    a message with a chat whose [users] is an array without [null]
    entries, and with a sender unless the array is empty. *)
Definition runs_through (messageData : option Received.MessageData) : Prop :=
  match messageData with
  | Some (Received.mkMessage sender _
            (Some (Received.mkChat _ (Some users)))) =>
      (None ∉ users) ∧ (users = [] ∨ is_Some sender)
  | _ => False
  end.

#[global] Instance runs_through_dec messageData :
  Decision (runs_through messageData).
Proof.
  destruct messageData as [[? ? [[? [?|]]|]]|]; simpl; apply _.
Defined.

(** The property whose read makes the handler throw, on a payload it
    does not run through. *)
Definition failing_read (v : option Received.MessageData) : string :=
  match v with
  | None => "chat"
  | Some d =>
      match Received.chat d with
      | None => "users"
      | Some c =>
          match Received.users c with
          | None => "forEach"
          | Some _ => "_id"
          end
      end
  end.

(** The events whose listener runs to its end. *)
Definition completes (e : ClientEvent) : Prop :=
  match e with
  | Setup userData => is_Some userData
  | NewMessage messageData => runs_through messageData
  | JoinChat _ | Unlistened _ => True
  end.

#[global] Instance completes_dec e : Decision (completes e).
Proof. destruct e; simpl; apply _. Defined.

(** The inputs that do not end the server. *)
Definition harmless (i : Input) : Prop :=
  match i with
  | Emit _ e => completes e
  | Connect _ | Disconnect _ => True
  end.

#[global] Instance harmless_dec i : Decision (harmless i).
Proof. destruct i; simpl; apply _. Defined.

(** ** A leave operation *)

(** Modelled from the spec: [leave(connectionId, roomId)] of the
    registry, which is missing from the sources: the connection handler
    has no operation that takes a connection out of a room while it
    stays connected, no listener calls [socket.leave].  The
    specification says of it: "removes roomId from membership; no-op if
    not a member".  It is written here the way Socket.IO's
    [socket.leave(room)] does it, through [adapter.del(id, room)]. *)
Definition leave (id : SocketId) (room : Room) : M unit := λ st,
  Normal tt
    {| sockets := sockets st;
       rooms := Adapter.del id room (rooms st);
       sids := alter (λ rs, rs ∖ {[room]}) id (sids st) |}.

(** The two calls of the registry on one connection and one room: a join
    is the ['join chat'] event of the connection. *)
Inductive Call := Join | Leave.

Definition call (c : SocketId) (r : Room) (k : Call) : M unit :=
  match k with
  | Join => step (Emit c (JoinChat r))
  | Leave => leave c r
  end.

(** ** Scenarios *)

Module Ex.

Definition uA : User := mkUser "uA".
Definition uB : User := mkUser "uB".
Definition uC : User := mkUser "uC".

Definition hi : MessageData :=
  mkMessage uA "hi" (mkChat "room1" [uA; uB; uC]).

Definition connect_all : list Input :=
  [Connect "A"; Connect "B"; Connect "C"].

(** Everybody opens the chat but nobody has sent ['setup']. *)
Definition joined_only : list Input :=
  connect_all ++
  [Emit "A" (JoinChat "room1"); Emit "B" (JoinChat "room1");
   Emit "C" (JoinChat "room1")].

(** Everybody has sent ['setup'] but nobody has opened the chat. *)
Definition set_up : list Input :=
  connect_all ++
  [Emit "A" (Setup (Some uA)); Emit "B" (Setup (Some uB));
   Emit "C" (Setup (Some uC))].

(** Only B has sent ['setup']; B and C have both opened the chat. *)
Definition one_set_up : list Input :=
  connect_all ++
  [Emit "B" (Setup (Some uB)); Emit "B" (JoinChat "room1");
   Emit "C" (JoinChat "room1")].

(** One socket that has opened a chat. *)
Definition opened : list Input :=
  [Connect "c1"; Emit "c1" (JoinChat "room1")].

(** [c1] has only connected; [c2] has sent ['setup'] as [u2]. *)
Definition u1 : User := mkUser "u1".
Definition u2 : User := mkUser "u2".

Definition hello : MessageData :=
  mkMessage u1 "hello" (mkChat "room1" [u1; u2]).

Definition anonymous_sender : list Input :=
  [Connect "c1"; Connect "c2"; Emit "c2" (Setup (Some u2))].

(** As before, then [c2] goes away. *)
Definition recipient_gone : list Input :=
  anonymous_sender ++ [Disconnect "c2"].

End Ex.

(** ** Notions for whole executions *)

(** The two kinds of packet the handlers write. *)
Definition server_packet (p : Packet) : Prop :=
  p = mkPacket "connected" NoArg ∨
  ∃ messageData, p = mkPacket "message received" (MsgArg messageData).

(** A client handling the packets of a queue in arrival order. *)
Definition client_replay (b : Branch) (q : list Packet) (c : Client) : Client :=
  fold_left (λ c' p, client_receive b p c') q c.

(** The socket an input is about. *)
Definition target (i : Input) : SocketId :=
  match i with
  | Connect id | Emit id _ | Disconnect id => id
  end.

(** The input closes socket [m]. *)
Definition closes (m : SocketId) (i : Input) : Prop :=
  match i with
  | Disconnect id => id = m
  | _ => False
  end.

#[global] Instance closes_dec m i : Decision (closes m i).
Proof. destruct i; simpl; apply _. Defined.

Module Ex2.

(** The same user listed twice in a chat. *)
Definition twice : MessageData :=
  mkMessage Ex.uA "hi" (mkChat "room1" [Ex.uA; Ex.uB; Ex.uB]).

(** A second device of the sender: A and B have both sent ['setup'] as
    [uA], C as [uC]. *)
Definition two_devices : list Input :=
  Ex.connect_all ++
  [Emit "A" (Setup (Some Ex.uA)); Emit "B" (Setup (Some Ex.uA));
   Emit "C" (Setup (Some Ex.uC))].

End Ex2.

(** * The REST side: middleware

    The Express middleware of the backend.  A handler either sends a
    response, calls [next()], or passes an error on with [next(err)];
    the status a handler has set before passing an error on travels with
    it, as it does on [res].  What the libraries decide ([jwt.verify],
    the stack recorded in a new [Error]) is a parameter. *)

Module Rest.

(** ** JavaScript strings *)

(** [s.split(sep)] for a one-character separator *)
Fixpoint split (sep : Ascii.ascii) (s : string) : list string :=
  match s with
  | EmptyString => [EmptyString]
  | String c s' =>
      if Ascii.eqb c sep then EmptyString :: split sep s'
      else match split sep s' with
           | [] => [String c EmptyString]
           | w :: ws => String c w :: ws
           end
  end.

(** The separator of [header.split(' ')] *)
Definition space : Ascii.ascii :=
  Ascii.Ascii false false false false false true false false.

(** [s.startsWith(p)] *)
Definition startsWith (p s : string) : bool := String.prefix p s.

(** Whether the character occurs in the string. *)
Fixpoint contains (c : Ascii.ascii) (s : string) : bool :=
  match s with
  | EmptyString => false
  | String c' s' => Ascii.eqb c' c || contains c s'
  end.

(** A string is truthy when it is not empty. *)
Definition truthy (s : string) : bool := negb (String.eqb s "").

(** ** Values *)

#[local] Set Warnings "-register-all".

Inductive Json :=
| JNull
| JBool (b : bool)
| JNum (n : Z)
| JStr (s : string)
| JArr (items : list Json)
| JObj (fields : list (string * Json)).

Record Error := mkError { message : string; stack : string }.

Inductive Result (A : Type) : Type :=
| Ok (a : A)
| Throw (err : Error).
Arguments Ok {A} a.
Arguments Throw {A} err.

(** A user document; [password] is absent after [.select('-password')]. *)
Record UserDoc := mkUserDoc {
  user_id : string;
  name : string;
  email : string;
  password : option string;
  pic : string
}.

(** [.select('-password')] *)
Definition select_minus_password (u : UserDoc) : UserDoc :=
  mkUserDoc (user_id u) (name u) (email u) None (pic u).

(** The user collection, by [_id]. *)
Abbreviation Users := (gmap string UserDoc).

(** [User.findById(id).select('-password')] *)
Definition findById_select (db : Users) (id : string) : option UserDoc :=
  select_minus_password <$> db !! id.

Record Request := mkRequest {
  (** [req.headers.authorization] *)
  authorization : option string;
  (** [req.originalUrl] *)
  originalUrl : string;
  (** [req.user] *)
  user : option UserDoc
}.

Definition set_user (req : Request) (u : option UserDoc) : Request :=
  mkRequest (authorization req) (originalUrl req) u.

Inductive Outcome :=
(** [res.status(statusCode).json(payload)] *)
| Sent (statusCode : nat) (payload : Json)
(** [next()] *)
| Next (req : Request)
(** [next(err)], with [res.statusCode] as it is then *)
| NextError (err : Error) (statusCode : nat).

Definition message_body (m : string) : Json := JObj [("message", JStr m)].

(** ** Error middleware *)

(** [notFound]; [captured] is the stack the new error records. *)
Definition notFound (captured : string) (req : Request) : Outcome :=
  let error := mkError ("Not Found - " +:+ originalUrl req) captured in
  NextError error 404.

(** [errorHandler]; [node_env] is [process.env.NODE_ENV]. *)
Definition errorHandler (node_env : option string) (err : Error)
    (res_statusCode : nat) : Outcome :=
  let statusCode := if Nat.eqb res_statusCode 200 then 500
                    else res_statusCode in
  Sent statusCode
    (JObj [("message", JStr (message err));
           ("stack", if decide (node_env = Some "production") then JNull
                     else JStr (stack err))]).

(** [asyncHandler(fn)]: a rejection of [fn] goes to [next]; the status
    is the one [fn] had set when it threw. *)
Definition asyncHandler {A} (fn : A → Result Outcome * nat) (a : A) : Outcome :=
  match fn a with
  | (Ok o, _) => o
  | (Throw err, statusCode) => NextError err statusCode
  end.

(** The end of the chain in [server.js]: an error reaches
    [errorHandler]. *)
Definition respond (node_env : option string) (o : Outcome) : Outcome :=
  match o with
  | NextError err statusCode => errorHandler node_env err statusCode
  | _ => o
  end.

(** ** Authentication middleware *)

Section auth.

(** [jwt.verify(token, process.env.JWT_SECRET)]: the [id] of the decoded
    payload, or the error thrown; the token is [None] when [undefined]. *)
Variable jwt_verify : option string → Result string.

(** [protect] of the interview examples *)
Definition protect (db : Users) (req : Request) : Outcome :=
  match authorization req with
  | Some header =>
      if truthy header && startsWith "Bearer" header then
        let token := split space header !! 1 in
        match jwt_verify token with
        | Ok id =>
            match findById_select db id with
            | Some u => Next (set_user req (Some u))
            | None => Sent 401 (message_body "User not found")
            end
        | Throw _ => Sent 401 (message_body "Not authorized, token failed")
        end
      else Sent 401 (message_body "Not authorized, no token")
  | None => Sent 401 (message_body "Not authorized, no token")
  end.

(** The error of reading [.split] of [undefined]; [captured] is its
    stack. *)
Definition split_of_undefined (captured : string) : Error :=
  mkError "Cannot read properties of undefined (reading 'split')" captured.

(** [protect] of the project's [authMiddleware.js], before
    [asyncHandler] *)
Definition protect_fn (captured : string) (db : Users) (req : Request)
    : Result Outcome * nat :=
  match authorization req with
  | None => (Throw (split_of_undefined captured), 200)
  | Some header =>
      let token := split space header !! 1 in
      match jwt_verify token with
      | Ok id => (Ok (Next (set_user req (findById_select db id))), 200)
      | Throw err => (Throw err, 200)
      end
  end.

Definition protect_project (captured : string) (db : Users) : Request → Outcome :=
  asyncHandler (protect_fn captured db).

End auth.

(** The header the frontend sends with its requests:
    [Authorization: `Bearer ${user.token}`] *)
Definition bearer (token : string) : string := "Bearer " +:+ token.

(** A token scheme for the examples: the token of an id is the id after
    ["jwt."]. *)
Definition toy_verify (token : option string) : Result string :=
  match token with
  | Some t =>
      if String.prefix "jwt." t then Ok (String.substring 4 (String.length t - 4) t)
      else Throw (mkError "invalid token" "")
  | None => Throw (mkError "jwt must be provided" "")
  end.

Definition alice : UserDoc :=
  mkUserDoc "65a1" "Alice" "alice@example.com" (Some "$2a$10$hash") "alice.png".

Definition toy_users : Users := {[ "65a1" := alice ]}.

End Rest.

(** * Input validation

    [validateInput] of the interview examples and the regular expression
    it tests the email with.  Here a JavaScript string is the sequence of
    its UTF-16 code units, which is what [length] counts and what a
    regular expression without the [u] flag matches on. *)

Module Validate.

Abbreviation JsString := (list N).

(** The code units of a string of one-byte characters, for examples. *)
Definition of_string (s : string) : JsString :=
  (λ c, N.of_nat (Ascii.nat_of_ascii c)) <$> String.list_ascii_of_string s.

(** What [\s] matches: white space and line terminators. *)
Definition is_space (c : N) : bool :=
  (N.eqb c 9 || N.eqb c 10 || N.eqb c 11 || N.eqb c 12 || N.eqb c 13 ||
   N.eqb c 32 || N.eqb c 160 || N.eqb c 5760 ||
   (N.leb 8192 c && N.leb c 8202) ||
   N.eqb c 8232 || N.eqb c 8233 || N.eqb c 8239 || N.eqb c 8287 ||
   N.eqb c 12288 || N.eqb c 65279)%N.

(** What [\S] matches. *)
Definition not_space (c : N) : bool := negb (is_space c).

(** Regular expressions over code units. *)
Inductive Regex :=
| Nothing
| Eps
| Class (p : N → bool)
| Cat (r1 r2 : Regex)
| Alt (r1 r2 : Regex)
| Star (r : Regex).

(** [r+] *)
Definition Plus (r : Regex) : Regex := Cat r (Star r).

(** A literal character. *)
Definition Chr (c : N) : Regex := Class (N.eqb c).

Fixpoint nullable (r : Regex) : bool :=
  match r with
  | Nothing => false
  | Eps => true
  | Class _ => false
  | Cat r1 r2 => nullable r1 && nullable r2
  | Alt r1 r2 => nullable r1 || nullable r2
  | Star _ => true
  end.

(** What is left of [r] after reading [c]. *)
Fixpoint deriv (c : N) (r : Regex) : Regex :=
  match r with
  | Nothing | Eps => Nothing
  | Class p => if p c then Eps else Nothing
  | Cat r1 r2 =>
      if nullable r1 then Alt (Cat (deriv c r1) r2) (deriv c r2)
      else Cat (deriv c r1) r2
  | Alt r1 r2 => Alt (deriv c r1) (deriv c r2)
  | Star r1 => Cat (deriv c r1) (Star r1)
  end.

(** [/^r$/.test(s)] *)
Fixpoint test (r : Regex) (s : JsString) : bool :=
  match s with
  | [] => nullable r
  | c :: s' => test (deriv c r) s'
  end.

(** The strings a regular expression matches as a whole. *)
Inductive matches : Regex → JsString → Prop :=
| matches_eps : matches Eps []
| matches_class p c : p c = true → matches (Class p) [c]
| matches_cat r1 r2 s1 s2 :
    matches r1 s1 → matches r2 s2 → matches (Cat r1 r2) (s1 ++ s2)
| matches_alt_l r1 r2 s : matches r1 s → matches (Alt r1 r2) s
| matches_alt_r r1 r2 s : matches r2 s → matches (Alt r1 r2) s
| matches_star_nil r : matches (Star r) []
| matches_star_app r s1 s2 :
    matches r s1 → matches (Star r) s2 → matches (Star r) (s1 ++ s2).

(** [const emailRegex = /^\S+@\S+\.\S+$/] *)
Definition emailRegex : Regex :=
  Cat (Plus (Class not_space))
    (Cat (Chr 64)
       (Cat (Plus (Class not_space))
          (Cat (Chr 46) (Plus (Class not_space))))).

(** The shape of an accepted email: a local part, ["@"], a middle part,
    ["."] and a last part, the three parts non-empty and free of white
    space. *)
Definition email_shape (s : JsString) : Prop :=
  ∃ a b c, s = a ++ 64%N :: b ++ 46%N :: c ∧
    a ≠ [] ∧ b ≠ [] ∧ c ≠ [] ∧
    Forall (λ x, is_space x = false) (a ++ b ++ c).

(** ** The values of a request body

    [express.json()] parses the body, so a field is a JSON value or is
    absent.  A JSON number is a double; what the language computes on
    numbers, and the number it reads a string as, is a parameter. *)
Section values.

Variable Number : Type.

(** [n === 0]: the numbers of a JSON text that are falsy *)
Variable is_zero : Number → bool.

(** [String(n)] *)
Variable Number_toString : Number → JsString.

(** [n < 6] *)
Variable Number_lt_6 : Number → bool.

(** [Number(s) < 6] for a string [s] *)
Variable String_lt_6 : JsString → bool.

#[local] Set Warnings "-register-all".

Inductive Value :=
| VNull
| VBool (b : bool)
| VNum (n : Number)
| VStr (s : JsString)
| VArr (items : list Value)
| VObj (fields : list (JsString * Value)).

(** The own property [key] of an object; of two entries with the same
    name [JSON.parse] keeps the later. *)
Fixpoint own (key : JsString) (fields : list (JsString * Value))
    : option Value :=
  match fields with
  | [] => None
  | (k, v) :: rest =>
      match own key rest with
      | Some v' => Some v'
      | None => if decide (k = key) then Some v else None
      end
  end.

(** [!!v], for a field that may be absent *)
Definition truthy (v : option Value) : bool :=
  match v with
  | None | Some VNull => false
  | Some (VBool b) => b
  | Some (VNum n) => negb (is_zero n)
  | Some (VStr s) => negb (bool_decide (s = []))
  | Some (VArr _) | Some (VObj _) => true
  end.

(** [String(v)].  An array is joined with commas, its [null] entries
    giving the empty string.  An object gives ["[object Object]"],
    unless it has a property named [toString]: JSON cannot make that a
    function, and the conversion throws a [TypeError], which is
    [None]. *)
Fixpoint ToString (v : Value) : option JsString :=
  match v with
  | VNull => Some (of_string "null")
  | VBool true => Some (of_string "true")
  | VBool false => Some (of_string "false")
  | VNum n => Some (Number_toString n)
  | VStr s => Some s
  | VArr items =>
      (fix join (items : list Value) : option JsString :=
         match items with
         | [] => Some []
         | x :: rest =>
             match match x with VNull => Some [] | _ => ToString x end with
             | None => None
             | Some s =>
                 match rest with
                 | [] => Some s
                 | _ :: _ =>
                     match join rest with
                     | None => None
                     | Some r => Some (s ++ 44%N :: r)
                     end
                 end
             end
         end) items
  | VObj fields =>
      match own (of_string "toString") fields with
      | Some _ => None
      | None => Some (of_string "[object Object]")
      end
  end.

(** [x < 6] for a JSON value [x]: [null] and the booleans count as [0]
    and [1]; an array or an object is converted to a string first. *)
Definition lt_6 (x : Value) : option bool :=
  match x with
  | VNull | VBool _ => Some true
  | VNum n => Some (Number_lt_6 n)
  | VStr s => Some (String_lt_6 s)
  | VArr _ | VObj _ => String_lt_6 <$> ToString x
  end.

(** [password.length < 6], for a truthy [password].  Numbers and
    booleans have no [length], and [undefined < 6] is false; an object
    has the [length] that its JSON text gave it. *)
Definition length_lt_6 (password : Value) : option bool :=
  match password with
  | VNull => None
  | VBool _ | VNum _ => Some false
  | VStr s => Some (length s <? 6)%nat
  | VArr items => Some (length items <? 6)%nat
  | VObj fields =>
      match own (of_string "length") fields with
      | Some x => lt_6 x
      | None => Some false
      end
  end.

(** [const { email, password } = req.body] *)
Record Credentials := mkCredentials {
  email : option Value;
  password : option Value
}.

Inductive Verdict :=
(** [res.status(statusCode).json({ message })] *)
| Rejected (statusCode : nat) (message : string)
(** [next()] *)
| Passed
(** a [TypeError] of a conversion, which Express passes on as an
    error *)
| Threw.

(** [validateInput] *)
Definition validateInput (body : Credentials) : Verdict :=
  match
    if truthy (email body)
    then negb <$> (email body ≫= λ email, test emailRegex <$> ToString email)
    else Some true
  with
  | None => Threw
  | Some true => Rejected 400 "Invalid email"
  | Some false =>
      match
        if truthy (password body)
        then password body ≫= length_lt_6
        else Some true
      with
      | None => Threw
      | Some true => Rejected 400 "Password must be at least 6 characters"
      | Some false => Passed
      end
  end.

End values.

Arguments VNull {Number}.
Arguments VBool {Number} b.
Arguments VNum {Number} n.
Arguments VStr {Number} s.
Arguments VArr {Number} items.
Arguments VObj {Number} fields.
Arguments mkCredentials {Number} email password.
Arguments email {Number} c.
Arguments password {Number} c.
Arguments own {Number} key fields.
Arguments truthy {Number} is_zero v.
Arguments ToString {Number} Number_toString v.
Arguments lt_6 {Number} Number_toString Number_lt_6 String_lt_6 x.
Arguments length_lt_6 {Number} Number_toString Number_lt_6 String_lt_6 password.
Arguments validateInput {Number} is_zero Number_toString Number_lt_6
  String_lt_6 body.

(** Integers as numbers, for the examples.  No string of theirs reads as
    a number below six. *)
Definition toy_toString (n : Z) : JsString := of_string (pretty n).

Definition toy_validate : Credentials Z → Verdict :=
  validateInput (Z.eqb 0) toy_toString (λ n, n <? 6)%Z (λ _, false).

End Validate.

(** * The REST side: controllers

    The controllers of the project over a store of three collections.
    A collection is the list of its documents in insertion order;
    [create] appends, [findOne] returns the first match, [populate]
    replaces ids by the documents found and drops the others.  Ids are
    opaque strings.  What the libraries compute ([bcrypt], [jwt.sign],
    [JSON.parse]) is a parameter, and what they draw at each call (the
    new [_id], the salt, the time, the stack of a new error) is an
    argument.  Body fields are strings when present. *)

Module Api.
Import Rest.

(** [req.body] *)
Abbreviation Body := (gmap string string).

(** [!v] for a body field that is a string when present *)
Definition absent (v : option string) : bool :=
  match v with
  | None => true
  | Some s => negb (truthy s)
  end.

Record ChatDoc := mkChatDoc {
  cid : string;
  chatName : string;
  isGroupChat : bool;
  chat_users : list string;
  groupAdmin : option string;
  latestMessage : option string
}.

Record MessageDoc := mkMessageDoc {
  mid : string;
  msg_sender : string;
  msg_content : string;
  msg_chat : string
}.

Record Store := mkStore {
  user_docs : list UserDoc;
  chat_docs : list ChatDoc;
  message_docs : list MessageDoc
}.

Definition user_by_id (db : Store) (id : string) : option UserDoc :=
  List.find (λ u, String.eqb (user_id u) id) (user_docs db).

Definition chat_by_id (db : Store) (id : string) : option ChatDoc :=
  List.find (λ c, String.eqb (cid c) id) (chat_docs db).

Definition message_by_id (db : Store) (id : string) : option MessageDoc :=
  List.find (λ m, String.eqb (mid m) id) (message_docs db).

(** [.populate('users', '-password')] and
    [User.populate(_, { select: 'name pic email' })]: either way the
    documents without their password. *)
Definition populate_users (db : Store) (ids : list string) : list UserDoc :=
  omap (λ id, select_minus_password <$> user_by_id db id) ids.

(** A chat with its references populated. *)
Record FullChat := mkFullChat {
  fc_doc : ChatDoc;
  fc_users : list UserDoc;
  fc_admin : option UserDoc;
  fc_latest : option MessageDoc
}.

(** [.populate('sender', 'name pic')] *)
Record SenderInfo := mkSenderInfo {
  sender_id : string;
  sender_name : string;
  sender_pic : string
}.

(** A message with its sender, its chat and the users of its chat
    populated. *)
Record FullMessage := mkFullMessage {
  fm_id : string;
  fm_sender : option SenderInfo;
  fm_content : string;
  fm_chat : option (ChatDoc * list UserDoc)
}.

(** A message as [allMessages] returns it: sender and chat populated,
    the users of the chat left as ids. *)
Record FetchedMessage := mkFetchedMessage {
  fd_doc : MessageDoc;
  fd_sender : option UserDoc;
  fd_chat : option ChatDoc
}.

Inductive Payload :=
(** [{ _id, name, email, pic, token }] *)
| AuthInfo (id name email pic token : string)
| ChatInfo (c : FullChat)
| MessageInfo (m : FullMessage)
| MessageList (ms : list FetchedMessage)
| Plain (j : Json).

(** A controller either answers, or throws with the status it has set
    so far. *)
Inductive Reply :=
| Replied (statusCode : nat) (p : Payload)
| Failed (err : Error) (res_statusCode : nat).

(** The status the client sees: a thrown error goes through
    [asyncHandler] to [errorHandler]. *)
Definition status_of (r : Reply) : nat :=
  match r with
  | Replied statusCode _ => statusCode
  | Failed err res_statusCode =>
      match errorHandler None err res_statusCode with
      | Sent statusCode _ => statusCode
      | _ => res_statusCode
      end
  end.

Section controllers.

(** [bcrypt.hash(password, salt)] and [bcrypt.compare(entered, hash)] *)
Variable bcrypt_hash : string → string → string.
Variable bcrypt_compare : string → string → bool.

(** [jwt.sign({ id }, process.env.JWT_SECRET, { expiresIn: "30d" })]
    called at the second [now]: the token carries the times of issue and
    of expiry. *)
Variable jwt_sign : string → nat → string.

(** [generateToken(id)], called at the second [now] *)
Definition generateToken (now : nat) (id : string) : string :=
  jwt_sign id now.

(** [JSON.parse(text)] for the [users] field of a group: the ids of
    the array of strings the text denotes, or what is thrown when the
    text is not JSON *)
Variable JSON_parse : string → Result (list string).

(** The [save] hook of the user schema, for a document whose password
    is modified or not. *)
Definition pre_save (modified : bool) (salt : string) (u : UserDoc) : UserDoc :=
  if negb modified then u
  else mkUserDoc (user_id u) (name u) (email u)
         ((λ p, bcrypt_hash p salt) <$> password u) (pic u).

(** [user.matchPassword(enteredPassword)] *)
Definition matchPassword (u : UserDoc) (enteredPassword : string) : bool :=
  match password u with
  | Some hash => bcrypt_compare enteredPassword hash
  | None => false
  end.

(** [registerUser]; the schema gives [pic] its default *)
Definition registerUser (new_id salt captured : string) (now : nat)
    (body : Body) (db : Store) : Reply * Store :=
  if absent (body !! "name") || absent (body !! "email") ||
     absent (body !! "password")
  then (Failed (mkError "Please Enter all the Fields" captured) 400, db)
  else
    let name := default "" (body !! "name") in
    let email := default "" (body !! "email") in
    let password := default "" (body !! "password") in
    match List.find (λ u, String.eqb (Rest.email u) email) (user_docs db) with
    | Some _ => (Failed (mkError "User already exists" captured) 400, db)
    | None =>
        let user :=
          pre_save true salt
            (mkUserDoc new_id name email (Some password)
               (default "default.jpg" (body !! "pic"))) in
        (Replied 201
           (AuthInfo (user_id user) (Rest.name user) (Rest.email user)
              (pic user) (generateToken now (user_id user))),
         mkStore (user_docs db ++ [user]) (chat_docs db) (message_docs db))
    end.

(** [authUser], for a body that carries both fields *)
Definition authUser (captured : string) (now : nat)
    (email password : string) (db : Store) : Reply * Store :=
  match List.find (λ u, String.eqb (Rest.email u) email) (user_docs db) with
  | Some user =>
      if matchPassword user password
      then (Replied 200
              (AuthInfo (user_id user) (Rest.name user) (Rest.email user)
                 (pic user) (generateToken now (user_id user))), db)
      else (Failed (mkError "Invalid Email or Password" captured) 401, db)
  | None => (Failed (mkError "Invalid Email or Password" captured) 401, db)
  end.

(** The one-to-one chats both users are in, as [Chat.find] of
    [accessChat] selects them *)
Definition chats_between (db : Store) (a b : string) : list ChatDoc :=
  List.filter (λ c, negb (isGroupChat c) &&
                    bool_decide (a ∈ chat_users c) &&
                    bool_decide (b ∈ chat_users c)) (chat_docs db).

Definition full_chat (db : Store) (c : ChatDoc) : FullChat :=
  mkFullChat c (populate_users db (chat_users c))
    (groupAdmin c ≫= λ id, select_minus_password <$> user_by_id db id)
    (latestMessage c ≫= message_by_id db).

(** What [Chat.findOne({ _id }).populate('users', '-password')] of
    [accessChat] returns: only the users are populated. *)
Definition chat_with_users (db : Store) (c : ChatDoc) : FullChat :=
  mkFullChat c (populate_users db (chat_users c)) None None.

(** [accessChat], for the signed-in user [me] *)
Definition accessChat (new_id : string) (me : UserDoc) (userId : string)
    (db : Store) : Reply * Store :=
  match chats_between db (user_id me) userId with
  | c :: _ =>
      (Replied 200
         (ChatInfo (mkFullChat c (populate_users db (chat_users c)) None
                      (latestMessage c ≫= message_by_id db))), db)
  | [] =>
      let createdChat :=
        mkChatDoc new_id "sender" false [user_id me; userId] None None in
      let db' := mkStore (user_docs db) (chat_docs db ++ [createdChat])
                   (message_docs db) in
      (Replied 200
         (ChatInfo (chat_with_users db'
                      (default createdChat (chat_by_id db' new_id)))), db')
  end.

(** [createGroupChat], for the signed-in user [me] *)
Definition createGroupChat (new_id : string) (me : UserDoc) (body : Body)
    (db : Store) : Reply * Store :=
  if absent (body !! "users") || absent (body !! "name")
  then (Replied 400 (Plain (message_body "Please Fill all the fields")), db)
  else
    match JSON_parse (default "" (body !! "users")) with
    | Throw err => (Failed err 200, db)
    | Ok users =>
        if (length users <? 2)%nat
        then (Replied 400 (Plain (JStr "More than 2 users required")), db)
        else
          let groupChat :=
            mkChatDoc new_id (default "" (body !! "name")) true
              (users ++ [user_id me]) (Some (user_id me)) None in
          let db' := mkStore (user_docs db) (chat_docs db ++ [groupChat])
                       (message_docs db) in
          (Replied 200
             (ChatInfo (full_chat db'
                          (default groupChat (chat_by_id db' new_id)))),
           db')
    end.

(** [Chat.findByIdAndUpdate(id, update)] on the first chat with the id *)
Fixpoint update_chat (id : string) (f : ChatDoc → ChatDoc)
    (chats : list ChatDoc) : list ChatDoc :=
  match chats with
  | [] => []
  | c :: rest =>
      if String.eqb (cid c) id then f c :: rest
      else c :: update_chat id f rest
  end.

Definition set_latest (m : string) (c : ChatDoc) : ChatDoc :=
  mkChatDoc (cid c) (chatName c) (isGroupChat c) (chat_users c)
    (groupAdmin c) (Some m).

Definition set_users (f : list string → list string) (c : ChatDoc) : ChatDoc :=
  mkChatDoc (cid c) (chatName c) (isGroupChat c) (f (chat_users c))
    (groupAdmin c) (latestMessage c).

(** The chat of a message is a reference to a chat document.  The
    string a request gives for it is cast by Mongoose when a message is
    created with it and when messages are looked up by it; [castable]
    says which strings the message schema takes.  For the others
    [Message.create] rejects with a validation error and [Message.find]
    with a cast error, whose messages are [validation_message] and
    [cast_message] of the string. *)
Variable castable : string → bool.
Variable validation_message cast_message : string → string.

(** [sendMessage] of the project, for the signed-in user [me].  The
    guide states Mongoose 8.2.4; there [message.populate(...)] is a
    promise, and a promise has no [execPopulate] (documents lost it with
    Mongoose 6).  So the first of the populate lines throws a
    [TypeError], after [Message.create] has stored the message, and the
    lines below it, the update of [latestMessage] among them, never
    run; [asyncHandler] passes the error on with the status still 200. *)
Definition sendMessage (new_id captured : string) (me : UserDoc)
    (body : Body) (db : Store) : Reply * Store :=
  if absent (body !! "content") || absent (body !! "chatId")
  then (Replied 400 (Plain (JStr "Bad Request")), db)
  else
    let content := default "" (body !! "content") in
    let chatId := default "" (body !! "chatId") in
    if negb (castable chatId)
    then (Failed (mkError (validation_message chatId) captured) 200, db)
    else
    let message := mkMessageDoc new_id (user_id me) content chatId in
    let db1 := mkStore (user_docs db) (chat_docs db)
                 (message_docs db ++ [message]) in
    (Failed (mkError "message.populate(...).execPopulate is not a function"
               captured) 200,
     db1).

(** [allMessages], for the chat id of the route *)
Definition allMessages (captured : string) (chatId : string) (db : Store)
    : Reply * Store :=
  if negb (castable chatId)
  then (Failed (mkError (cast_message chatId) captured) 200, db)
  else
  (Replied 200
     (MessageList
        ((λ m, mkFetchedMessage m
                 (select_minus_password <$> user_by_id db (msg_sender m))
                 (chat_by_id db (msg_chat m))) <$>
         List.filter (λ m, String.eqb (msg_chat m) chatId) (message_docs db))),
   db).

(** [addToGroup] and [removeFromGroup] of the interview examples:
    [$push] appends the id, [$pull] removes every entry equal to it. *)
Definition addToGroup (chatId userId : string) (db : Store) : Reply * Store :=
  let db' := mkStore (user_docs db)
               (update_chat chatId (set_users (λ us, us ++ [userId]))
                  (chat_docs db))
               (message_docs db) in
  match chat_by_id db' chatId with
  | Some updatedChat => (Replied 200 (ChatInfo (full_chat db' updatedChat)), db')
  | None => (Replied 404 (Plain (message_body "Chat not found")), db')
  end.

Definition removeFromGroup (chatId userId : string) (db : Store)
    : Reply * Store :=
  let db' := mkStore (user_docs db)
               (update_chat chatId
                  (set_users (List.filter (λ u, negb (String.eqb u userId))))
                  (chat_docs db))
               (message_docs db) in
  match chat_by_id db' chatId with
  | Some updatedChat => (Replied 200 (ChatInfo (full_chat db' updatedChat)), db')
  | None => (Replied 404 (Plain (message_body "Chat not found")), db')
  end.

End controllers.

(** ** The message controller of the interview examples *)

Module Interview.

(** [sendMessage] of the interview examples, for the signed-in user
    [me]: it awaits [message.populate(...)], which Mongoose 8 provides.
    A sender or a chat that is not stored is populated as [null].  What
    [Message.create] throws for a chat it cannot cast is caught and
    answered with a 500. *)
Definition sendMessage (castable : string → bool)
    (validation_message : string → string) (new_id : string) (me : UserDoc)
    (body : Body) (db : Store) : Reply * Store :=
  if absent (body !! "content") || absent (body !! "chatId")
  then (Replied 400 (Plain (message_body "Invalid data")), db)
  else
    let content := default "" (body !! "content") in
    let chatId := default "" (body !! "chatId") in
    if negb (castable chatId)
    then (Replied 500 (Plain (message_body (validation_message chatId))), db)
    else
    let message := mkMessageDoc new_id (user_id me) content chatId in
    let db1 := mkStore (user_docs db) (chat_docs db)
                 (message_docs db ++ [message]) in
    let populated :=
      mkFullMessage (mid message)
        ((λ u, mkSenderInfo (user_id u) (name u) (pic u)) <$>
           user_by_id db1 (msg_sender message))
        (msg_content message)
        ((λ c, (c, populate_users db1 (chat_users c))) <$>
           chat_by_id db1 (msg_chat message)) in
    (Replied 200 (MessageInfo populated),
     mkStore (user_docs db1)
       (update_chat chatId (set_latest (mid message)) (chat_docs db1))
       (message_docs db1)).

End Interview.

(** ** The frontend and the two servers together *)

(** The two implementations of [POST /api/message] in the repository. *)
Inductive Controller := OfProject | OfExamples.

Definition post_message (castable : string → bool)
    (validation_message : string → string) (controller : Controller)
    (new_id captured : string) (me : UserDoc) (body : Body) (db : Store)
    : Reply * Store :=
  match controller with
  | OfProject =>
      sendMessage castable validation_message new_id captured me body db
  | OfExamples =>
      Interview.sendMessage castable validation_message new_id me body db
  end.

(** The body [sendMessage] of [SingleChat.js] posts, on each side of the
    merge *)
Definition post_body (b : Branch) (newMessage selectedChat_id : string) : Body :=
  match b with
  | HEAD => {[ "content" := newMessage; "chatId" := selectedChat_id ]}
  | Coding11_12 => {[ "content" := newMessage; "chatID" := selectedChat_id ]}
  end.

(** [axios.post] resolves with the [data] of an answer whose status is
    in the 200s and rejects otherwise; an error that a controller threw
    is answered by [errorHandler]. *)
Definition axios_data (r : Reply) : option Payload :=
  let ok := (200 <=? status_of r)%nat && (status_of r <? 300)%nat in
  match r with
  | Replied _ p => if ok then Some p else None
  | Failed err res_statusCode =>
      if ok
      then match errorHandler None err res_statusCode with
           | Sent _ j => Some (Plain j)
           | _ => None
           end
      else None
  end.

(** The [data] of a response as the socket handler reads it: a sender
    or a chat that was not found is [null]. *)
Definition wire (m : FullMessage) : Received.MessageData :=
  Received.mkMessage ((λ s, mkUser (sender_id s)) <$> fm_sender m)
    (fm_content m)
    ((λ cu, Received.mkChat (cid cu.1)
              (Some ((λ u, Some (mkUser (user_id u))) <$> cu.2))) <$>
       fm_chat m).

(** What [sendMessage] of [SingleChat.js] emits before it posts: one
    side announces the end of typing, the other has that line in a
    comment. *)
Definition stop_typing (b : Branch) : list ClientEvent :=
  match b with
  | HEAD => [Unlistened "stop typing"]
  | Coding11_12 => []
  end.

(** [sendMessage] of [SingleChat.js]: on Enter with a non-empty input
    the message is posted; when the request succeeds its [data] is
    emitted as ['new message'] and appended to [messages]; when it
    fails only a toast is shown.  The result is the client, the store,
    and the events emitted on the socket, in order.  Neither controller
    answers a success with anything but a message
    ([success_carries_message]); for such data, which has no message to
    read, nothing is recorded here. *)
Definition frontend_send (castable : string → bool)
    (validation_message : string → string) (b : Branch)
    (controller : Controller) (new_id captured : string) (me : UserDoc)
    (key newMessage selectedChat_id : string) (c : Client) (db : Store)
    : Client * Store * list ClientEvent :=
  if String.eqb key "Enter" && truthy newMessage then
    let (reply, db') :=
      post_message castable validation_message controller new_id captured me
        (post_body b newMessage selectedChat_id) db in
    match axios_data reply with
    | Some (MessageInfo m) =>
        let data := wire m in
        (mkClient (messages c ++ [data]) (socketConnected c)
           (isTyping c) (selectedChatCompare c),
         db', stop_typing b ++ [NewMessage (Some data)])
    | _ => (c, db', stop_typing b)
    end
  else (c, db, []).

(** ** Scenarios *)

(** Stand-ins for the libraries: a hash that is the password itself,
    and a token that is the id after ["jwt."], followed by the time. *)
Definition toy_hash (password salt : string) : string := password.

Definition toy_compare (entered hash : string) : bool :=
  String.eqb entered hash.

Definition toy_token (id : string) (now : nat) : string :=
  "jwt." +:+ id +:+ "." +:+ pretty now.

(** A stand-in for the cast: the strings of at most 24 characters, and
    the value itself as the message of either error. *)
Definition toy_castable (id : string) : bool :=
  bool_decide (String.length id ≤ 24).

Definition toy_message (id : string) : string := id.

(** A stand-in for [JSON.parse]: the ids separated by commas. *)
Definition toy_parse (text : string) : Result (list string) :=
  Ok (split (Ascii.Ascii false false true true false true false false) text).

Definition ann : UserDoc := mkUserDoc "uA" "Ann" "ann@example.com" (Some "h") "a.png".
Definition bob : UserDoc := mkUserDoc "uB" "Bob" "bob@example.com" (Some "h") "b.png".
Definition cyd : UserDoc := mkUserDoc "uC" "Cyd" "cyd@example.com" (Some "h") "c.png".

Definition room1 : ChatDoc :=
  mkChatDoc "room1" "friends" true ["uA"; "uB"; "uC"] (Some "uA") None.

Definition toy_store : Store := mkStore [ann; bob; cyd] [room1] [].

End Api.

(** * Verification *)

(** ** Unfolding computations *)

Lemma bind_Normal {A B} (m : M A) (k : A → M B) st a st' :
  m st = Normal a st' → (m ≫= k) st = k a st'.
Proof. intros H. unfold mbind, M_bind. by rewrite H. Qed.

Lemma bind_Thrown {A B} (m : M A) (k : A → M B) st exn st' :
  m st = Thrown exn st' → (m ≫= k) st = Thrown exn st'.
Proof. intros H. unfold mbind, M_bind. by rewrite H. Qed.

Lemma ret_Normal {A} (a : A) st : (mret a : M A) st = Normal a st.
Proof. done. Qed.

(** Closed decidable facts about a scenario, by evaluation. *)
Ltac decide_by_computation :=
  apply (bool_decide_unpack _); vm_compute; exact I.

Ltac step_m :=
  repeat first
    [ rewrite ret_Normal
    | erewrite bind_Normal by (reflexivity || eassumption) ].

(** ** Rooms after the adapter operations *)

Section adapter_facts.
Implicit Types (st : Server) (id socket : SocketId) (room r : Room).
Implicit Types (rms : gmap Room (gset SocketId)).

Lemma del_lookup id room rms r :
  default ∅ (Adapter.del id room rms !! r) =
    if decide (r = room) then default ∅ (rms !! r) ∖ {[id]}
    else default ∅ (rms !! r).
Proof.
  unfold Adapter.del. destruct (rms !! room) as [ids|] eqn:Hroom.
  - repeat case_decide; subst; simplify_map_eq; auto.
  - case_decide; subst; [rewrite Hroom; simpl; set_solver | done].
Qed.

Lemma fold_del_lookup id rms (rs : gset Room) r :
  default ∅ (set_fold (Adapter.del id) rms rs !! r) =
    if decide (r ∈ rs) then default ∅ (rms !! r) ∖ {[id]}
    else default ∅ (rms !! r).
Proof.
  set (P := λ (acc : gmap Room (gset SocketId)) (X : gset Room),
         ∀ r, default ∅ (acc !! r) =
                if decide (r ∈ X) then default ∅ (rms !! r) ∖ {[id]}
                else default ∅ (rms !! r)).
  cut (P (set_fold (Adapter.del id) rms rs) rs); [by intros H|].
  apply (set_fold_ind_L P); unfold P.
  - intros r'. by rewrite decide_False by set_solver.
  - intros x X acc Hx IH r'. rewrite del_lookup, IH.
    repeat case_decide; subst; set_solver.
Qed.

Lemma membersOf_join socket room st st' r :
  socket_join socket room st = Normal tt st' →
  membersOf st' r =
    if decide (r = room) then {[socket]} ∪ membersOf st r
    else membersOf st r.
Proof.
  intros [= <-]. unfold membersOf; simpl.
  case_decide; subst; by simplify_map_eq.
Qed.

Lemma joinedRooms_join socket room st st' id :
  socket_join socket room st = Normal tt st' →
  joinedRooms st' id =
    if decide (id = socket) then {[room]} ∪ joinedRooms st id
    else joinedRooms st id.
Proof.
  intros [= <-]. unfold joinedRooms; simpl.
  case_decide; subst; by simplify_map_eq.
Qed.

Lemma sockets_join socket room st st' :
  socket_join socket room st = Normal tt st' → sockets st' = sockets st.
Proof. by intros [= <-]. Qed.

End adapter_facts.

(** ** The effect of the ['new message'] handler *)

Section fan_out.
Implicit Types (st : Server) (socket m : SocketId).
Implicit Types (messageData : MessageData).

Lemma server_eq st1 st2 :
  sockets st1 = sockets st2 → rooms st1 = rooms st2 →
  sids st1 = sids st2 → st1 = st2.
Proof. destruct st1, st2; simpl; congruence. Qed.

Lemma sockets_deliver p n st m :
  sockets (deliver p n st) !! m =
    (λ q, q ++ replicate (n m) p) <$> sockets st !! m.
Proof. simpl. rewrite map_lookup_imap. by destruct (sockets st !! m). Qed.

Lemma deliver_zero p n st : (∀ m, connected st m → n m = 0) → deliver p n st = st.
Proof.
  intros Hn. apply server_eq; try done. apply map_eq; intros m.
  rewrite sockets_deliver. destruct (sockets st !! m) as [q|] eqn:Hq; [|done].
  simpl. rewrite Hn; [by rewrite app_nil_r|].
  apply elem_of_dom. eauto.
Qed.

Lemma deliver_deliver p n1 n2 st :
  deliver p n2 (deliver p n1 st) = deliver p (λ m, n1 m + n2 m) st.
Proof.
  apply server_eq; try done. apply map_eq; intros m.
  rewrite !sockets_deliver. destruct (sockets st !! m) as [q|]; [|done].
  simpl. by rewrite <-app_assoc, replicate_add.
Qed.

Lemma broadcast_deliver p room exceptRoom st :
  Adapter.broadcast p room exceptRoom st =
    Normal tt
      (deliver p (λ m, if decide (m ∈ membersOf st room ∖
                                        membersOf st exceptRoom)
                       then 1 else 0) st).
Proof.
  unfold Adapter.broadcast. f_equal. apply server_eq; try done.
  apply map_eq; intros m. rewrite sockets_deliver. simpl.
  rewrite map_lookup_imap. destruct (sockets st !! m) as [q|]; [|done].
  simpl. case_decide; [done | by rewrite app_nil_r].
Qed.

Lemma socket_to_emit_deliver socket room e a st :
  e ∉ RESERVED_EVENTS →
  socket_to_emit socket room e a st =
    Normal true
      (deliver (mkPacket e a)
         (λ m, if decide (m ∈ membersOf st room ∖ membersOf st socket)
               then 1 else 0) st).
Proof.
  intros He. unfold socket_to_emit. rewrite decide_False by done.
  by erewrite bind_Normal by apply broadcast_deliver.
Qed.

Lemma socket_to_emit_reserved socket room e a st :
  e ∈ RESERVED_EVENTS →
  socket_to_emit socket room e a st = Thrown (reserved e) st.
Proof. intros He. unfold socket_to_emit. by rewrite decide_True. Qed.

Lemma message_received_not_reserved : "message received" ∉ RESERVED_EVENTS.
Proof. decide_by_computation. Qed.

Lemma connected_not_reserved : "connected" ∉ RESERVED_EVENTS.
Proof. decide_by_computation. Qed.

(** The handler on a message that has a chat with a list of users. *)
Lemma new_message_unfold socket s content cid us st :
  let d := Received.mkMessage s content
             (Some (Received.mkChat cid (Some us))) in
  new_message socket (Some d) st = forEach us (each_user socket d s) st.
Proof. reflexivity. Qed.

(** The loop of the handler over a list of entries, for a message [d]:
    it stops at the first entry that is [null], or at the first entry
    at all when there is no sender; the entries before are served. *)
Lemma forEach_users socket (d : Received.MessageData) (s : option User)
    (us : list (option User)) st :
  ∃ n, (∀ m, m ∈ membersOf st socket → n m = 0) ∧
    forEach us (each_user socket d s) st =
    (if decide ((None ∉ us) ∧ (us = [] ∨ is_Some s))
     then Normal tt else Thrown (TypeError "_id"))
      (deliver (mkPacket "message received" (MsgArg d)) n st).
Proof.
  revert st. induction us as [|[u|] us IH]; intros st.
  - exists (λ _, 0). split; [done|]. simpl. by rewrite deliver_zero.
  - destruct s as [s|].
    + set (st1 := if negb (String.eqb (_id u) (_id s))
                  then deliver (mkPacket "message received" (MsgArg d))
                         (λ m, if decide (m ∈ membersOf st (_id u) ∖
                                                membersOf st socket)
                               then 1 else 0) st
                  else st).
      destruct (IH st1) as (n & Hn & Hrun).
      exists (λ m, (if negb (String.eqb (_id u) (_id s))
                    then if decide (m ∈ membersOf st (_id u) ∖
                                          membersOf st socket)
                         then 1 else 0
                    else 0) + n m).
      split.
      { intros m Hm. rewrite Hn.
        - destruct (negb _); [|done]. rewrite decide_False; [done|set_solver].
        - unfold st1. by destruct (negb _). }
      cbn [forEach].
      assert (Hu : each_user socket d (Some s) (Some u) st = Normal tt st1).
      { unfold each_user, st1.
        erewrite bind_Normal by reflexivity.
        erewrite bind_Normal by reflexivity.
        destruct (negb _); [|done].
        erewrite bind_Normal
          by (apply socket_to_emit_deliver, message_received_not_reserved).
        done. }
      erewrite bind_Normal by exact Hu.
      rewrite Hrun.
      assert (Hiff : (None ∉ us) ∧ (us = [] ∨ is_Some (Some s)) ↔
                     (None ∉ Some u :: us) ∧
                     (Some u :: us = [] ∨ is_Some (Some s))).
      { rewrite not_elem_of_cons. split.
        - intros [? _]. split; [done|]. right. eauto.
        - intros [[_ ?] _]. split; [done|]. right. eauto. }
      assert (Hst : deliver (mkPacket "message received" (MsgArg d)) n st1 =
                    deliver (mkPacket "message received" (MsgArg d))
                      (λ m, (if negb (String.eqb (_id u) (_id s))
                             then if decide (m ∈ membersOf st (_id u) ∖
                                                   membersOf st socket)
                                  then 1 else 0
                             else 0) + n m) st).
      { unfold st1. destruct (negb _); [by rewrite deliver_deliver|done]. }
      rewrite Hst. repeat case_decide; tauto || done.
    + exists (λ _, 0). split; [done|]. cbn [forEach].
      erewrite bind_Thrown by reflexivity.
      rewrite decide_False.
      * by rewrite deliver_zero.
      * intros [_ [?|[? ?]]]; done.
  - exists (λ _, 0). split; [done|]. cbn [forEach].
    erewrite bind_Thrown by reflexivity.
    rewrite decide_False by set_solver. by rewrite deliver_zero.
Qed.

(** What the handler leaves, whatever it is sent: some copies of one
    packet, none of them for a socket of the sender's own room. *)
Lemma new_message_state socket v st :
  ∃ p n, server_packet p ∧ (∀ m, m ∈ membersOf st socket → n m = 0) ∧
    state_of (new_message socket v st) = deliver p n st.
Proof.
  assert (Hnone : ∃ p n, server_packet p ∧
            (∀ m, m ∈ membersOf st socket → n m = 0) ∧
            st = deliver p n st).
  { exists (mkPacket "connected" NoArg), (λ _, 0).
    split; [by left|]. split; [done|]. by rewrite deliver_zero. }
  destruct v as [[s content [[cid [us|]]|]]|]; try exact Hnone.
  rewrite new_message_unfold.
  set (d := Received.mkMessage s content
              (Some (Received.mkChat cid (Some us)))).
  destruct (forEach_users socket d s us st) as (n & Hn & Hrun).
  exists (mkPacket "message received" (MsgArg d)), n.
  split; [right; eauto|]. split; [done|].
  rewrite Hrun. by case_decide.
Qed.

(** When the handler runs to its end, and when it throws. *)
Lemma new_message_outcome socket v st :
  new_message socket v st =
    if decide (runs_through v)
    then Normal tt (state_of (new_message socket v st))
    else Thrown (TypeError (failing_read v))
           (state_of (new_message socket v st)).
Proof.
  destruct v as [[s content [[cid [us|]]|]]|]; try done.
  rewrite new_message_unfold.
  set (d := Received.mkMessage s content
              (Some (Received.mkChat cid (Some us)))).
  destruct (forEach_users socket d s us st) as (n & _ & Hrun).
  rewrite Hrun. unfold runs_through, d. by repeat case_decide.
Qed.

Lemma some_entries (us : list (option User)) :
  None ∉ us → ∃ us', us = Some <$> us'.
Proof.
  induction us as [|[u|] us IH]; intros Hno.
  - by exists [].
  - destruct IH as [us' ->]; [set_solver|]. by exists (u :: us').
  - set_solver.
Qed.

Lemma forEach_deliver socket (d : Received.MessageData) (s : User)
    (us : list User) st :
  forEach (Some <$> us) (each_user socket d (Some s)) st =
  Normal tt
    (deliver (mkPacket "message received" (MsgArg d))
       (λ m, length (filter (λ u, _id u ≠ _id s ∧
                                  m ∈ membersOf st (_id u) ∖
                                        membersOf st socket) us)) st).
Proof.
  revert st. induction us as [|user us IH]; intros st.
  - simpl. rewrite ret_Normal, deliver_zero; done.
  - rewrite fmap_cons. cbn [forEach].
    destruct (String.eqb_spec (_id user) (_id s)) as [Heq|Hne].
    + erewrite bind_Normal; last first.
      { unfold each_user.
        erewrite bind_Normal by reflexivity.
        erewrite bind_Normal by reflexivity.
        rewrite (proj2 (String.eqb_eq _ _) Heq). apply ret_Normal. }
      rewrite IH. f_equal. apply server_eq; try done.
      apply map_eq; intros m. rewrite !sockets_deliver.
      rewrite filter_cons_False; [done|]. tauto.
    + erewrite bind_Normal; last first.
      { unfold each_user.
        erewrite bind_Normal by reflexivity.
        erewrite bind_Normal by reflexivity.
        rewrite (proj2 (String.eqb_neq _ _) Hne). simpl.
        erewrite bind_Normal
          by (apply socket_to_emit_deliver, message_received_not_reserved).
        apply ret_Normal. }
      rewrite IH, deliver_deliver. f_equal. apply server_eq; try done.
      apply map_eq; intros m. rewrite !sockets_deliver.
      destruct (sockets st !! m) as [q|]; [simpl|done].
      do 3 f_equal. rewrite filter_cons.
      repeat case_decide; simpl; try done; tauto.
Qed.

Lemma new_message_deliver socket messageData st :
  new_message socket (Some (sent messageData)) st =
    Normal tt
      (deliver (message_packet messageData)
         (copies st socket messageData) st).
Proof.
  unfold sent. rewrite new_message_unfold.
  by rewrite (forEach_deliver _ _ (sender messageData)).
Qed.

End fan_out.
(** ** The registry invariant *)

Section invariant.
Implicit Types (st : Server) (id socket : SocketId) (room r : Room).

Lemma consistent_init : consistent init.
Proof.
  split; unfold membersOf, joinedRooms, connected; simpl.
  - intros r id. rewrite !lookup_empty. set_solver.
  - intros r id. rewrite lookup_empty. set_solver.
  - intros id. rewrite dom_empty_L. set_solver.
Qed.

(** Only the socket table matters for being connected. *)
Lemma consistent_same_rooms st st' :
  rooms st' = rooms st → sids st' = sids st →
  dom (sockets st') = dom (sockets st) →
  consistent st → consistent st'.
Proof.
  intros Hr Hs Hd [H1 H2 H3].
  split; unfold membersOf, joinedRooms, connected in *;
    rewrite ?Hr, ?Hs, ?Hd; auto.
Qed.

Lemma dom_deliver p n st : dom (sockets (deliver p n st)) = dom (sockets st).
Proof.
  apply set_eq; intros m. rewrite !elem_of_dom, sockets_deliver.
  by rewrite fmap_is_Some.
Qed.

Lemma consistent_deliver p n st : consistent st → consistent (deliver p n st).
Proof. apply consistent_same_rooms; auto using dom_deliver. Qed.

Lemma consistent_join socket room st st' :
  connected st socket → consistent st →
  socket_join socket room st = Normal tt st' → consistent st'.
Proof.
  intros Hc [H1 H2 H3] Hj.
  split.
  - intros r id.
    rewrite (membersOf_join _ _ _ _ _ Hj), (joinedRooms_join _ _ _ _ _ Hj).
    specialize (H1 r id). repeat case_decide; subst; set_solver.
  - intros r id. rewrite (joinedRooms_join _ _ _ _ _ Hj).
    unfold connected in *. rewrite (sockets_join _ _ _ _ Hj).
    case_decide; subst; [auto|apply H2].
  - intros id. rewrite (joinedRooms_join _ _ _ _ _ Hj).
    unfold connected in *. rewrite (sockets_join _ _ _ _ Hj).
    intros Hid. specialize (H3 id Hid). case_decide; set_solver.
Qed.

Lemma socket_emit_Normal socket e a st :
  e ∉ RESERVED_EVENTS →
  socket_emit socket e a st =
    Normal true
      {| sockets := alter (λ q, q ++ [mkPacket e a]) socket (sockets st);
         rooms := rooms st;
         sids := sids st |}.
Proof. intros He. unfold socket_emit. by rewrite decide_False. Qed.

Lemma setup_Normal socket userData st :
  ∃ st1 st', socket_join socket (_id userData) st = Normal tt st1 ∧
    setup socket (Some userData) st = Normal tt st' ∧
    rooms st' = rooms st1 ∧ sids st' = sids st1 ∧
    sockets st' =
      alter (λ q, q ++ [mkPacket "connected" NoArg]) socket (sockets st).
Proof.
  eexists _, _. split; [reflexivity|]. split.
  { unfold setup.
    erewrite bind_Normal by reflexivity.
    erewrite bind_Normal by reflexivity.
    erewrite bind_Normal
      by (apply socket_emit_Normal, connected_not_reserved).
    reflexivity. }
  done.
Qed.

Lemma consistent_setup socket userData st st' :
  connected st socket → consistent st →
  setup socket (Some userData) st = Normal tt st' → consistent st'.
Proof.
  intros Hc Hst Hs.
  destruct (setup_Normal socket userData st)
    as (st1 & st2 & Hj & Hs' & Hr & Hsd & Hso).
  rewrite Hs in Hs'. injection Hs' as <-.
  apply (consistent_same_rooms st1); auto.
  - rewrite Hso, (sockets_join _ _ _ _ Hj). apply dom_alter_L.
  - eapply consistent_join; eauto.
Qed.

Lemma on_connect_Normal id st :
  ∃ st', on_connect id st = Normal tt st' ∧
    sockets st' = <[id := []]> (sockets st) ∧
    (∀ r, membersOf st' r =
            if decide (r = id) then {[id]} ∪ membersOf st r
            else membersOf st r) ∧
    (∀ i, joinedRooms st' i =
            if decide (i = id) then {[id]} ∪ joinedRooms st i
            else joinedRooms st i).
Proof.
  eexists; split; [reflexivity|]. split; [done|].
  split; intros x; unfold membersOf, joinedRooms; simpl;
    case_decide; subst; by simplify_map_eq.
Qed.

Lemma consistent_connect id st st' :
  consistent st → on_connect id st = Normal tt st' → consistent st'.
Proof.
  intros [H1 H2 H3] Hc.
  destruct (on_connect_Normal id st) as (st2 & Hc' & Hso & Hm & Hj).
  rewrite Hc in Hc'. injection Hc' as <-.
  split.
  - intros r i. rewrite Hm, Hj. specialize (H1 r i).
    repeat case_decide; subst; set_solver.
  - intros r i. rewrite Hj. unfold connected in *.
    rewrite Hso, dom_insert_L. specialize (H2 r i).
    case_decide; subst; set_solver.
  - intros i. rewrite Hj. unfold connected in *.
    rewrite Hso, dom_insert_L. specialize (H3 i).
    case_decide; subst; set_solver.
Qed.

Lemma on_close_Normal id st :
  ∃ st', on_close id st = Normal tt st' ∧
    sockets st' = delete id (sockets st) ∧
    sids st' = delete id (sids st) ∧
    (∀ r, membersOf st' r =
            if decide (r ∈ joinedRooms st id) then membersOf st r ∖ {[id]}
            else membersOf st r).
Proof.
  unfold on_close, Adapter.delAll, joinedRooms.
  destruct (sids st !! id) as [rs|] eqn:Hrs.
  - eexists; split.
    { erewrite bind_Normal; [|by rewrite Hrs].
      erewrite bind_Normal by reflexivity. reflexivity. }
    simpl. split; [done|]. split; [done|].
    intros r. unfold membersOf; simpl. apply fold_del_lookup.
  - eexists; split.
    { erewrite bind_Normal; [|by rewrite Hrs].
      erewrite bind_Normal by reflexivity. reflexivity. }
    simpl. split; [done|]. split; [by rewrite delete_id|].
    intros r. by rewrite decide_False by set_solver.
Qed.

Lemma members_close id st st' :
  consistent st → on_close id st = Normal tt st' →
  ∀ r, membersOf st' r = membersOf st r ∖ {[id]}.
Proof.
  intros [H1 _ _] Hc r.
  destruct (on_close_Normal id st) as (st2 & Hc' & _ & _ & Hm).
  rewrite Hc in Hc'. injection Hc' as <-.
  rewrite Hm. case_decide as Hr; [done|].
  rewrite <-H1 in Hr. set_solver.
Qed.

Lemma consistent_close id st st' :
  consistent st → on_close id st = Normal tt st' → consistent st'.
Proof.
  intros Hst Hc. pose proof (members_close _ _ _ Hst Hc) as Hm.
  destruct Hst as [H1 H2 H3].
  destruct (on_close_Normal id st) as (st2 & Hc' & Hso & Hsd & _).
  rewrite Hc in Hc'. injection Hc' as <-.
  assert (Hj : ∀ i, joinedRooms st' i =
                 if decide (i = id) then ∅ else joinedRooms st i).
  { intros i. unfold joinedRooms. rewrite Hsd.
    case_decide; subst; by simplify_map_eq. }
  split.
  - intros r i. rewrite Hm, Hj. specialize (H1 r i).
    case_decide; subst; set_solver.
  - intros r i. rewrite Hj. unfold connected in *.
    rewrite Hso, dom_delete_L. specialize (H2 r i).
    case_decide; subst; set_solver.
  - intros i. rewrite Hj. unfold connected in *.
    rewrite Hso, dom_delete_L. specialize (H3 i).
    case_decide; subst; set_solver.
Qed.

(** A step returns or throws; either way it leaves a state. *)
Lemma step_outcome i st :
  step i st = Normal tt (state_of (step i st)) ∨
  ∃ exn, step i st = Thrown exn (state_of (step i st)).
Proof. destruct (step i st) as [[] ?|]; simpl; eauto. Qed.

(** Every step keeps the invariant, also one that throws. *)
Lemma step_consistent i st :
  consistent st → consistent (state_of (step i st)).
Proof.
  intros Hst. destruct i as [id|id e|id]; unfold step; case_decide as Hc;
    try done.
  - destruct (on_connect_Normal id st) as (st' & Hs & _).
    rewrite Hs. eauto using consistent_connect.
  - destruct e as [[userData|]|roomId|messageData|name]; unfold on_event;
      try done.
    + destruct (setup_Normal id userData st) as (? & st' & _ & Hs & _).
      rewrite Hs. eauto using consistent_setup.
    + eapply consistent_join; eauto; reflexivity.
    + destruct (new_message_state id messageData st) as (p & n & _ & _ & ->).
      by apply consistent_deliver.
  - destruct (on_close_Normal id st) as (st' & Hs & _).
    rewrite Hs. eauto using consistent_close.
Qed.

(** A step throws only for an event whose listener does. *)
Lemma step_Normal i st :
  harmless i → step i st = Normal tt (state_of (step i st)).
Proof.
  intros Hi. destruct i as [id|id e|id]; unfold step; case_decide as Hc.
  - done.
  - by destruct (on_connect_Normal id st) as (st' & -> & _).
  - destruct e as [[userData|]|roomId|messageData|name]; simpl in Hi;
      unfold on_event.
    + by destruct (setup_Normal id userData st) as (? & st' & _ & -> & _).
    + by destruct Hi.
    + done.
    + rewrite new_message_outcome at 1. by rewrite decide_True.
    + done.
  - done.
  - by destruct (on_close_Normal id st) as (st' & -> & _).
  - done.
Qed.

Lemma run_cons i tr st :
  run (i :: tr) st =
    match step i st with
    | Normal _ st1 => run tr st1
    | Thrown exn st1 => Thrown exn st1
    end.
Proof. reflexivity. Qed.

Lemma run_step i tr st st1 :
  step i st = Normal tt st1 → run (i :: tr) st = run tr st1.
Proof. intros Hs. by rewrite run_cons, Hs. Qed.

Lemma run_consistent tr st :
  consistent st → consistent (state_of (run tr st)).
Proof.
  revert st. induction tr as [|i tr IH]; intros st Hst; [done|].
  rewrite run_cons. pose proof (step_consistent i st Hst) as Hst1.
  destruct (step i st) as [[] st1|exn st1]; simpl in *; auto.
Qed.

(** A trace of harmless inputs is handled to its end. *)
Lemma run_Normal tr st :
  Forall harmless tr → run tr st = Normal tt (state_of (run tr st)).
Proof.
  intros Htr. revert st. induction Htr as [|i tr Hi _ IH]; intros st; [done|].
  rewrite run_cons, (step_Normal i st Hi). apply IH.
Qed.

(** The states the server reaches satisfy the invariant. *)
Lemma final_consistent tr : consistent (final tr).
Proof. apply run_consistent, consistent_init. Qed.

Lemma run_Normal_consistent tr st0 st :
  consistent st0 → run tr st0 = Normal tt st → consistent st.
Proof.
  intros Hst0 Hrun. pose proof (run_consistent tr st0 Hst0) as H.
  by rewrite Hrun in H.
Qed.

End invariant.

(** ** Sender exclusion *)

Lemma except_own_room st socket (n : SocketId → nat) p :
  consistent st →
  (∀ m, m ∈ membersOf st socket → n m = 0) →
  sockets (deliver p n st) !! socket = sockets st !! socket.
Proof.
  intros Hst Hn. rewrite sockets_deliver.
  destruct (sockets st !! socket) as [q|] eqn:Hq; [simpl|done].
  rewrite Hn; [by rewrite app_nil_r|].
  apply (members_joined st Hst), (own_room st Hst).
  apply elem_of_dom. eauto.
Qed.

Lemma copies_excepted st socket messageData m :
  m ∈ membersOf st socket → copies st socket messageData m = 0.
Proof.
  intros Hm. unfold copies.
  induction (users (chat messageData)) as [|u us IH]; [done|].
  rewrite filter_cons_False; [done|]. unfold recipient. set_solver.
Qed.

(** C1: in every state the server reaches, [socket.to(room).emit(...)]
    issued by a socket never writes to that socket's own queue, for any
    room, event and argument, whether or not the socket is a member of the
    room, and whether the emit returns or throws (it throws for an event
    name that is reserved, and returns [true] for any other); hence
    handling ['new message'] from a connection leaves that connection's
    queue as it was, whatever the message, also when the handler throws
    on it; for a message as the frontend sends it the handler runs to its
    end.  A trace of inputs none of which makes a listener throw is
    handled to its end. *)
Theorem sender_never_receives (tr : list Input) (c : SocketId) :
  let st := final tr in
  (Forall harmless tr → run tr init = Normal tt st) ∧
  (∀ room e a,
      sockets (state_of (socket_to_emit c room e a st)) !! c =
        sockets st !! c ∧
      (e ∉ RESERVED_EVENTS →
       ∃ st', socket_to_emit c room e a st = Normal true st')) ∧
  (∀ received,
      sockets (state_of (step (Emit c (NewMessage received)) st)) !! c =
        sockets st !! c) ∧
  (∀ messageData, ∃ st',
      step (Emit c (NewMessage (Some (sent messageData)))) st =
        Normal tt st' ∧
      sockets st' !! c = sockets st !! c).
Proof.
  intros st. pose proof (final_consistent tr) as Hst. fold st in Hst.
  split; [apply run_Normal|]. split; [|split].
  - intros room e a. destruct (decide (e ∈ RESERVED_EVENTS)) as [He|He].
    + rewrite socket_to_emit_reserved by done. done.
    + rewrite socket_to_emit_deliver by done. split; [|eauto].
      apply except_own_room; [done|]. intros m Hm.
      rewrite decide_False; [done | set_solver].
  - intros received. unfold step. case_decide; [simpl | done].
    destruct (new_message_state c received st) as (p & n & _ & Hn & ->).
    by apply except_own_room.
  - intros messageData. unfold step. case_decide; [simpl | by eexists].
    eexists. split; [apply new_message_deliver|].
    apply except_own_room; auto using copies_excepted.
Qed.

(** A socket alone in the room it emits to: nothing is written. *)
Example only_member_is_excepted :
  let st := final [Connect "c1"; Emit "c1" (Setup (Some Ex.u1))] in
  membersOf st "u1" = {["c1"]} ∧
  socket_to_emit "c1" "u1" "message received" (MsgArg (sent Ex.hello)) st =
    Normal true st.
Proof. split; by vm_compute. Qed.

(** ** Event names *)

Lemma no_listener_for_message_received b a c :
  triggered b (mkPacket "message received" a) = [] ∧
  client_receive b (mkPacket "message received" a) c = c.
Proof. by destruct b. Qed.

Lemma queue_deliver p n st m :
  connected st m → queue (deliver p n st) m = queue st m ++ replicate (n m) p.
Proof.
  intros [q Hq]%elem_of_dom. unfold queue.
  by rewrite sockets_deliver, Hq.
Qed.

(** C2: the ['new message'] handler emits under the name
    ["message received"]: handling a message appends to each queue as
    many packets of that name, carrying the message, as the message has
    recipients there, and there are broadcasts that do write one (A's
    message to B, after both have sent ['setup']).  The frontend listens
    under ["message recieved"] on one side of the merge and under
    ["new message"] on the other, and under ["message received"] on
    neither; so a packet the handler writes triggers no listener on
    either side and leaves the client as it was. *)
Theorem emitted_name_has_no_listener :
  (∀ st socket messageData, ∃ st',
     new_message socket (Some (sent messageData)) st = Normal tt st' ∧
     ∀ m, sockets st' !! m =
            (λ q, q ++ replicate (copies st socket messageData m)
                         (message_packet messageData)) <$> sockets st !! m) ∧
  (let st := final Ex.set_up in
   ∃ st', step (Emit "A" (NewMessage (Some (sent Ex.hi)))) st = Normal tt st' ∧
     queue st' "B" = queue st "B" ++ [message_packet Ex.hi]) ∧
  (∀ messageData, ev (message_packet messageData) = "message received") ∧
  "message recieved" ∈ fst <$> listeners HEAD ∧
  "new message" ∈ fst <$> listeners Coding11_12 ∧
  (∀ b, "message received" ∉ fst <$> listeners b) ∧
  (∀ b messageData c,
     triggered b (message_packet messageData) = [] ∧
     client_receive b (message_packet messageData) c = c).
Proof.
  split; [|split; [|split; [|split; [|split; [|split]]]]].
  - intros st socket messageData. eexists.
    split; [apply new_message_deliver|]. intros m. apply sockets_deliver.
  - eexists. split; by vm_compute.
  - done.
  - simpl. set_solver.
  - simpl. set_solver.
  - intros []; simpl; set_solver.
  - intros b messageData c. apply no_listener_for_message_received.
Qed.

(** The listeners do append a message that arrives under their own name. *)
Example listener_fires_under_its_own_name :
  let d := sent (mkMessage (mkUser "u1") "hi" (mkChat "chat1" [])) in
  let c := mkClient [] true false (Some (mkChat "chat1" [])) in
  messages (client_receive HEAD (mkPacket "message recieved" (MsgArg d)) c)
    = [d] ∧
  messages (client_receive Coding11_12 (mkPacket "new message" (MsgArg d)) c)
    = [d] ∧
  messages (client_receive HEAD (mkPacket "message received" (MsgArg d)) c)
    = [] ∧
  messages (client_receive Coding11_12
              (mkPacket "message received" (MsgArg d)) c) = [].
Proof. done. Qed.

(** ** Disconnect *)

(** C4: in every state the server reaches, the members of a room are
    exactly the connected sockets that have joined it; and disconnecting a
    connection removes it from the socket table and from every room, the
    other members staying as they were.  A trace of inputs none of which
    makes a listener throw is handled to its end. *)
Theorem no_stale_membership (tr : list Input) :
  let st := final tr in
  (Forall harmless tr → run tr init = Normal tt st) ∧
  (∀ r c, c ∈ membersOf st r ↔ connected st c ∧ r ∈ joinedRooms st c) ∧
  (∀ c, ∃ st',
      step (Disconnect c) st = Normal tt st' ∧
      (¬ connected st' c) ∧
      joinedRooms st' c = ∅ ∧
      ∀ r, (c ∉ membersOf st' r) ∧ membersOf st' r = membersOf st r ∖ {[c]}).
Proof.
  intros st. pose proof (final_consistent tr) as Hst. fold st in Hst.
  split; [apply run_Normal|]. split.
  - intros r c. destruct Hst as [H1 H2 H3]. rewrite H1. naive_solver.
  - intros c. unfold step. case_decide as Hc.
    + destruct (on_close_Normal c st) as (st' & Hs & Hso & Hsd & _).
      exists st'. split; [done|].
      pose proof (members_close _ _ _ Hst Hs) as Hm.
      split; [|split].
      * unfold connected. rewrite Hso, dom_delete_L. set_solver.
      * unfold joinedRooms. by rewrite Hsd, lookup_delete_eq.
      * intros r. rewrite Hm. set_solver.
    + exists st. split; [done|]. split; [done|].
      assert (Hj : ∀ r, r ∉ joinedRooms st c).
      { intros r Hr. by apply Hc, (joined_connected st Hst r). }
      split; [set_solver|].
      intros r. assert (c ∉ membersOf st r).
      { rewrite (members_joined st Hst). apply Hj. }
      set_solver.
Qed.

(** ** Ordering *)

(** C9: two broadcasts to the same room issued one after the other by the
    same socket reach every socket in that order: a recipient's queue is
    extended by the first packet followed by the second, and no other
    queue changes (for event names that [emit] accepts; an emit under a
    reserved name throws and writes nothing); likewise two
    ['new message'] events handled in a row leave every copy of the
    first message before every copy of the second. *)
Theorem broadcasts_arrive_in_issue_order (st : Server) (s : SocketId) :
  (∀ room e1 a1 e2 a2,
      e1 ∉ RESERVED_EVENTS → e2 ∉ RESERVED_EVENTS →
      ∃ st1 st2,
      socket_to_emit s room e1 a1 st = Normal true st1 ∧
      socket_to_emit s room e2 a2 st1 = Normal true st2 ∧
      ∀ m, sockets st2 !! m =
             (λ q, q ++ if decide (m ∈ membersOf st room ∖ membersOf st s)
                        then [mkPacket e1 a1; mkPacket e2 a2] else []) <$>
               sockets st !! m) ∧
  (∀ room e a, e ∈ RESERVED_EVENTS →
      socket_to_emit s room e a st = Thrown (reserved e) st) ∧
  (∀ d1 d2, ∃ st1 st2,
      new_message s (Some (sent d1)) st = Normal tt st1 ∧
      new_message s (Some (sent d2)) st1 = Normal tt st2 ∧
      ∀ m, sockets st2 !! m =
             (λ q, q ++ replicate (copies st s d1 m) (message_packet d1)
                     ++ replicate (copies st s d2 m) (message_packet d2)) <$>
               sockets st !! m).
Proof.
  split; [|split].
  - intros room e1 a1 e2 a2 He1 He2. eexists _, _.
    split; [by apply socket_to_emit_deliver|].
    split; [by apply socket_to_emit_deliver|].
    intros m. rewrite !sockets_deliver.
    destruct (sockets st !! m) as [q|]; [simpl|done].
    unfold membersOf; simpl. case_decide; by rewrite <-app_assoc.
  - intros room e a He. by apply socket_to_emit_reserved.
  - intros d1 d2. eexists _, _.
    split; [apply new_message_deliver|].
    split; [apply new_message_deliver|].
    intros m. rewrite !sockets_deliver.
    destruct (sockets st !! m) as [q|]; [simpl|done].
    by rewrite <-app_assoc.
Qed.

(** ** Who receives a message *)

Lemma filter_unique_length {A B} `{EqDecision B} (f : A → B) (P : A → Prop)
    `{∀ x, Decision (P x)} (l : list A) (x : A) :
  NoDup (f <$> l) → x ∈ l → Forall (λ y, P y ↔ f y = f x) l →
  length (filter P l) = 1.
Proof.
  induction l as [|y l IH]; intros Hnd Hx Hall.
  - by apply elem_of_nil in Hx.
  - rewrite fmap_cons in Hnd. apply NoDup_cons in Hnd as [Hy Hnd].
    apply Forall_cons in Hall as [HPy Hall].
    destruct (decide (f y = f x)) as [Heq|Hne].
    + rewrite filter_cons_True by (by apply HPy). simpl. f_equal.
      destruct (filter P l) as [|z k] eqn:Hf; [done|]. exfalso.
      assert (Hz : z ∈ filter P l) by (rewrite Hf; left).
      apply list_elem_of_filter in Hz as [HPz Hz].
      rewrite Forall_forall in Hall.
      apply Hy. rewrite Heq, <-(proj1 (Hall z Hz) HPz).
      by apply list_elem_of_fmap_2.
    + rewrite filter_cons_False by (by rewrite HPy).
      apply elem_of_cons in Hx as [->|Hx]; [done|]. by apply IH.
Qed.

(** The claim of C3 as stated fails: A, B and C are all members of the
    chat room, A sends a message for that chat, and neither B nor C is
    written anything. *)
Lemma chat_room_members_receive_nothing :
  let st := final Ex.joined_only in
  run Ex.joined_only init = Normal tt st ∧
  membersOf st "room1" = {["A"; "B"; "C"]} ∧
  ∃ st', step (Emit "A" (NewMessage (Some (sent Ex.hi)))) st = Normal tt st' ∧
         queue st' "A" = [] ∧ queue st' "B" = [] ∧ queue st' "C" = [].
Proof.
  split; [by vm_compute|]. split; [by vm_compute|].
  eexists. split; [by vm_compute|]. by vm_compute.
Qed.

(** C3, amended: in a reachable state let B be connected, in the personal
    room of exactly one user listed in the chat of the message (the room
    it joined at ['setup']), that user not being the sender, and let B not
    be in the room named by A's socket id.  Then one ['new message'] from
    the connected socket A writes exactly one copy of the message to B
    and none to A.  The listed user ids are distinct.  Whether A or B
    joined the chat room plays no part. *)
Theorem one_copy_per_personal_room (tr : list Input) (st : Server)
    (A B : SocketId) (uB : User) (messageData : MessageData) :
  run tr init = Normal tt st →
  connected st A → connected st B →
  NoDup (_id <$> users (chat messageData)) →
  uB ∈ users (chat messageData) →
  _id uB ≠ _id (sender messageData) →
  Forall (λ u, B ∈ membersOf st (_id u) ↔ _id u = _id uB)
    (users (chat messageData)) →
  B ∉ membersOf st A →
  ∃ st', step (Emit A (NewMessage (Some (sent messageData)))) st =
           Normal tt st' ∧
    queue st' B = queue st B ++ [message_packet messageData] ∧
    queue st' A = queue st A.
Proof.
  intros Hrun HA HB Hnd HuB Hsender Hrooms Hexcept.
  pose proof (run_Normal_consistent tr init st consistent_init Hrun) as Hst.
  exists (deliver (message_packet messageData) (copies st A messageData) st).
  split; [|split].
  - unfold step. rewrite decide_True by done. apply new_message_deliver.
  - rewrite queue_deliver by done. f_equal.
    cut (copies st A messageData B = 1); [by intros ->|].
    apply (filter_unique_length _id _ _ uB); [done..|].
    eapply Forall_impl; [exact Hrooms|]. intros u Hu; simpl in *.
    unfold recipient. split.
    + intros [_ Hm]. apply Hu. set_solver.
    + intros Hid. split; [congruence|]. apply Hu in Hid. set_solver.
  - rewrite queue_deliver by done.
    rewrite copies_excepted; [by rewrite app_nil_r|].
    by apply (members_joined st Hst), (own_room st Hst).
Qed.

Lemma one_copy_per_personal_room_witness :
  ∃ st', step (Emit "A" (NewMessage (Some (sent Ex.hi)))) (final Ex.set_up) =
           Normal tt st' ∧
    queue st' "B" = queue (final Ex.set_up) "B" ++ [message_packet Ex.hi] ∧
    queue st' "A" = queue (final Ex.set_up) "A".
Proof.
  apply (one_copy_per_personal_room Ex.set_up (final Ex.set_up) "A" "B"
           Ex.uB Ex.hi).
  - vm_compute. reflexivity.
  - decide_by_computation.
  - decide_by_computation.
  - decide_by_computation.
  - decide_by_computation.
  - decide_by_computation.
  - decide_by_computation.
  - decide_by_computation.
Defined.

(** ** Joining and leaving *)

Lemma join_idempotent socket room st st1 :
  socket_join socket room st = Normal tt st1 →
  socket_join socket room st1 = Normal tt st1.
Proof.
  intros [= <-]. unfold socket_join, Adapter.addAll. f_equal.
  unfold membersOf, joinedRooms; simpl. rewrite !lookup_insert_eq; simpl.
  apply server_eq; simpl; [done|..]; rewrite insert_insert_eq; f_equal;
    set_solver.
Qed.

(** What an event of a connected socket does to the rooms, whether its
    listener returns or throws. *)
Lemma emit_members c e st :
  connected st c →
  dom (sockets (state_of (step (Emit c e) st))) = dom (sockets st) ∧
  ∀ r, membersOf (state_of (step (Emit c e) st)) r =
         if decide (joins r e) then {[c]} ∪ membersOf st r
         else membersOf st r.
Proof.
  intros Hc. unfold step. rewrite decide_True by done.
  destruct e as [[userData|]|roomId|messageData|name]; unfold on_event.
  - destruct (setup_Normal c userData st) as (st1 & st' & Hj & Hs & Hr & _ & Hso).
    rewrite Hs. simpl. split.
    + by rewrite Hso, dom_alter_L.
    + intros r. transitivity (membersOf st1 r).
      { unfold membersOf. by rewrite Hr. }
      rewrite (membersOf_join _ _ _ _ r Hj).
      repeat case_decide; simpl in *; congruence.
  - done.
  - split; [done|].
    intros r. erewrite membersOf_join by reflexivity.
    repeat case_decide; simpl in *; congruence.
  - destruct (new_message_state c messageData st) as (p & n & _ & _ & ->).
    split; [apply dom_deliver|done].
  - done.
Qed.

Lemma leave_members c r st st' r' :
  leave c r st = Normal tt st' →
  membersOf st' r' =
    if decide (r' = r) then membersOf st r' ∖ {[c]} else membersOf st r'.
Proof. intros [= <-]. unfold membersOf; simpl. apply del_lookup. Qed.

Lemma leave_joined c r st st' c' :
  leave c r st = Normal tt st' →
  joinedRooms st' c' =
    if decide (c' = c) then joinedRooms st c' ∖ {[r]} else joinedRooms st c'.
Proof.
  intros [= <-]. unfold joinedRooms; simpl. case_decide; subst.
  - rewrite lookup_alter_eq. destruct (sids st !! c); simpl; set_solver.
  - by rewrite lookup_alter_ne.
Qed.

(** One call of the registry on a connected socket. *)
Lemma call_members c r k st :
  connected st c →
  ∃ st', call c r k st = Normal tt st' ∧ connected st' c ∧
    (c ∈ membersOf st' r ↔ k = Join).
Proof.
  intros Hc. destruct k; unfold call.
  - destruct (emit_members c (JoinChat r) st Hc) as [Hd Hm].
    rewrite (step_Normal (Emit c (JoinChat r)) st) by done.
    eexists. split; [done|]. split.
    + unfold connected. by rewrite Hd.
    + rewrite Hm. simpl. rewrite decide_True by done. set_solver.
  - eexists. split; [done|]. split; [done|].
    erewrite leave_members by done. rewrite decide_True by done.
    set_solver.
Qed.

Lemma calls_members c r calls st :
  connected st c →
  ∃ st', forEach calls (call c r) st = Normal tt st' ∧ connected st' c ∧
    (c ∈ membersOf st' r ↔
       match last calls with
       | Some k => k = Join
       | None => c ∈ membersOf st r
       end).
Proof.
  revert st. induction calls as [|k calls IH]; intros st Hc.
  - by exists st.
  - destruct (call_members c r k st Hc) as (st1 & Hk & Hc1 & Hm1).
    destruct (IH st1 Hc1) as (st' & Hrun & Hc' & Hm').
    exists st'. split; [|split; [done|]].
    + simpl. by erewrite bind_Normal by exact Hk.
    + rewrite Hm'. destruct calls as [|k' calls]; [done|].
      change (last (k :: k' :: calls)) with (last (k' :: calls)).
      destruct (last (k' :: calls)) eqn:Hl; [done|].
      by apply last_None in Hl.
Qed.

(** C5: for a connected socket c and a room r, after any sequence of
    join and leave calls on the pair, c is a member of r exactly when
    the last call is a join (and as it was before when there is no
    call); a second join of the same pair changes nothing; a leave of a
    socket that is not a member changes no membership and no queue.  A
    join is the ['join chat'] event of the socket; the leave is the
    operation of the specification, the handler has none. *)
Theorem membership_follows_last_call (tr : list Input) (c : SocketId)
    (r : Room) (calls : list Call) :
  connected (final tr) c →
  (∃ st', forEach calls (call c r) (final tr) = Normal tt st' ∧
     connected st' c ∧
     (c ∈ membersOf st' r ↔
        match last calls with
        | Some k => k = Join
        | None => c ∈ membersOf (final tr) r
        end)) ∧
  (∃ st1, call c r Join (final tr) = Normal tt st1 ∧
     c ∈ membersOf st1 r ∧
     call c r Join st1 = Normal tt st1) ∧
  (c ∉ membersOf (final tr) r →
   ∃ st1, call c r Leave (final tr) = Normal tt st1 ∧
     sockets st1 = sockets (final tr) ∧
     (∀ r', membersOf st1 r' = membersOf (final tr) r') ∧
     (∀ c', joinedRooms st1 c' = joinedRooms (final tr) c')).
Proof.
  intros Hc. pose proof (final_consistent tr) as Hst.
  split; [by apply calls_members|]. split.
  - destruct (call_members c r Join (final tr) Hc) as (st1 & Hk & Hc1 & Hm1).
    exists st1. split; [done|]. split; [by apply Hm1|].
    simpl in *. unfold step in *.
    rewrite decide_True in Hk by done. rewrite decide_True by done.
    by apply join_idempotent in Hk.
  - intros Hout. eexists. split; [reflexivity|]. split; [done|]. split.
    + intros r'. erewrite leave_members by done.
      case_decide; subst; set_solver.
    + intros c'. erewrite leave_joined by done.
      case_decide; subst; [|done].
      rewrite (members_joined _ Hst) in Hout. set_solver.
Qed.

Lemma membership_follows_last_call_witness :
  let st := final [Connect "c1"] in
  (∃ st', forEach [Join; Leave; Join; Join; Leave] (call "c1" "room1") st =
            Normal tt st' ∧
     connected st' "c1" ∧
     ("c1" ∈ membersOf st' "room1" ↔
        match last [Join; Leave; Join; Join; Leave] with
        | Some k => k = Join
        | None => "c1" ∈ membersOf st "room1"
        end)) ∧
  (∃ st1, call "c1" "room1" Join st = Normal tt st1 ∧
     "c1" ∈ membersOf st1 "room1" ∧
     call "c1" "room1" Join st1 = Normal tt st1) ∧
  ("c1" ∉ membersOf st "room1" →
   ∃ st1, call "c1" "room1" Leave st = Normal tt st1 ∧
     sockets st1 = sockets st ∧
     (∀ r', membersOf st1 r' = membersOf st r') ∧
     (∀ c', joinedRooms st1 c' = joinedRooms st c')).
Proof.
  apply (membership_follows_last_call [Connect "c1"] "c1" "room1"
           [Join; Leave; Join; Join; Leave]).
  decide_by_computation.
Defined.

(** The calls of the witness leave the socket outside the room. *)
Example join_leave_sequence :
  let st := final [Connect "c1"] in
  ("c1" ∉ membersOf st "room1") ∧
  "c1" ∈ membersOf
           (state_of (forEach [Join; Leave; Join] (call "c1" "room1") st))
           "room1" ∧
  "c1" ∉ membersOf
           (state_of (forEach [Join; Leave; Join; Join; Leave]
                        (call "c1" "room1") st))
           "room1".
Proof. split_and!; decide_by_computation. Qed.

(** ** Sending without an identity *)

Lemma copies_positive st c messageData m u :
  u ∈ users (chat messageData) → recipient st c messageData m u →
  0 < copies st c messageData m.
Proof.
  intros Hu Hr. unfold copies.
  assert (Hin : u ∈ filter (recipient st c messageData m)
                      (users (chat messageData)))
    by by apply list_elem_of_filter.
  destruct (filter _ _); [by apply elem_of_nil in Hin | simpl; lia].
Qed.

(** The claim of C7 as stated fails: [c1] has connected but never sent
    ['setup'] and never joined the chat, and its message is delivered to
    [c2] all the same, without an error. *)
Lemma send_without_setup_is_delivered :
  let st := final Ex.anonymous_sender in
  run Ex.anonymous_sender init = Normal tt st ∧
  joinedRooms st "c1" = {["c1"]} ∧
  ∃ st', step (Emit "c1" (NewMessage (Some (sent Ex.hello)))) st =
           Normal tt st' ∧
         queue st' "c2" = queue st "c2" ++ [message_packet Ex.hello].
Proof.
  split; [by vm_compute|]. split; [by vm_compute|].
  eexists. split; by vm_compute.
Qed.

(** C7, amended: the ['new message'] handler checks neither identity nor
    membership.  For every connected socket c, whatever rooms it has
    joined, whether the handler runs to its end depends on what was sent
    and on nothing else: it does exactly when that is a message with a
    chat whose users are an array without [null] entries and, unless the
    array is empty, with a sender; otherwise it throws the [TypeError] of
    the property it could not read.  No [Unauthorized] error exists.
    Either way no room changes.  For a message as the frontend sends it
    the handler runs to its end and appends to the queue of each
    connected socket m one copy of the message per listed user other
    than the sender whose personal room holds m, m being outside the
    room named by c's id; so every such m gets the message. *)
Theorem send_needs_no_identity (st : Server) (c : SocketId)
    (received : option Received.MessageData) :
  connected st c →
  let outcome := step (Emit c (NewMessage received)) st in
  outcome =
    (if decide (runs_through received) then Normal tt
     else Thrown (TypeError (failing_read received))) (state_of outcome) ∧
  rooms (state_of outcome) = rooms st ∧
  sids (state_of outcome) = sids st ∧
  ∀ messageData, received = Some (sent messageData) →
    outcome = Normal tt (state_of outcome) ∧
    (∀ m, connected st m →
       queue (state_of outcome) m =
         queue st m ++ replicate (copies st c messageData m)
                         (message_packet messageData)) ∧
    (∀ u m, u ∈ users (chat messageData) →
       _id u ≠ _id (sender messageData) →
       m ∈ membersOf st (_id u) → m ∉ membersOf st c →
       0 < copies st c messageData m).
Proof.
  intros Hc outcome.
  assert (Ho : outcome = new_message c received st).
  { unfold outcome, step. by rewrite decide_True. }
  split; [|split; [|split]].
  - rewrite Ho. rewrite new_message_outcome at 1. by case_decide.
  - rewrite Ho.
    by destruct (new_message_state c received st) as (p & n & _ & _ & ->).
  - rewrite Ho.
    by destruct (new_message_state c received st) as (p & n & _ & _ & ->).
  - intros messageData ->. rewrite Ho, new_message_deliver. simpl.
    split; [done|]. split.
    + intros m Hm. by apply queue_deliver.
    + intros u m Hu Hne Hm Hex. apply (copies_positive _ _ _ _ u); [done|].
      unfold recipient. set_solver.
Qed.

Lemma send_needs_no_identity_witness :
  let st := final Ex.anonymous_sender in
  let received := Some (sent Ex.hello) in
  let outcome := step (Emit "c1" (NewMessage received)) st in
  outcome =
    (if decide (runs_through received) then Normal tt
     else Thrown (TypeError (failing_read received))) (state_of outcome) ∧
  rooms (state_of outcome) = rooms st ∧
  sids (state_of outcome) = sids st ∧
  ∀ messageData, received = Some (sent messageData) →
    outcome = Normal tt (state_of outcome) ∧
    (∀ m, connected st m →
       queue (state_of outcome) m =
         queue st m ++ replicate (copies st "c1" messageData m)
                         (message_packet messageData)) ∧
    (∀ u m, u ∈ users (chat messageData) →
       _id u ≠ _id (sender messageData) →
       m ∈ membersOf st (_id u) → m ∉ membersOf st "c1" →
       0 < copies st "c1" messageData m).
Proof.
  apply (send_needs_no_identity (final Ex.anonymous_sender) "c1"
           (Some (sent Ex.hello))).
  decide_by_computation.
Defined.

(** A message without chat from a socket that has sent ['setup'], and
    from one that has not: the same [TypeError]. *)
Example no_chat_throws_for_everyone :
  let st := final Ex.anonymous_sender in
  let no_chat := Some (Received.mkMessage (Some Ex.u1) "hello" None) in
  step (Emit "c1" (NewMessage no_chat)) st = Thrown (TypeError "users") st ∧
  step (Emit "c2" (NewMessage no_chat)) st = Thrown (TypeError "users") st.
Proof. split; by vm_compute. Qed.

(** ** Broadcasting to nobody *)

(** The claim of C8 as stated fails in what is returned: the emit
    returns [true] and the handler returns nothing, both when the only
    recipient is connected and gets the message and when it has
    disconnected and nothing is written.  No count of deliveries or of
    dropped recipients is produced. *)
Lemma emit_returns_no_report :
  let st := final Ex.anonymous_sender in
  let st0 := final Ex.recipient_gone in
  let emit := socket_to_emit "c1" "u2" "message received"
                (MsgArg (sent Ex.hello)) in
  (∃ st', emit st = Normal true st' ∧
          queue st' "c2" = queue st "c2" ++ [message_packet Ex.hello]) ∧
  emit st0 = Normal true st0 ∧
  (∃ st', new_message "c1" (Some (sent Ex.hello)) st = Normal tt st' ∧
          queue st' "c2" = queue st "c2" ++ [message_packet Ex.hello]) ∧
  new_message "c1" (Some (sent Ex.hello)) st0 = Normal tt st0.
Proof.
  split; [eexists; split; by vm_compute|].
  split; [by vm_compute|].
  split; [eexists; split; by vm_compute|].
  by vm_compute.
Qed.

(** C8, amended: a broadcast to a room with no members, for instance
    after every member has disconnected, raises nothing for an event
    name that [emit] accepts: it returns [true], writes nothing and
    leaves the server unchanged; and so does a ['new message'] with a
    message as the frontend sends it whose listed users all have empty
    rooms.  With recipients present the emit and the handler complete
    as well, each recipient getting its packets.  What does raise has
    nothing to do with the members: the emit throws for a reserved event
    name, the handler for a payload with a missing part.  Nothing is
    reported: the emit returns [true] and the handler returns no
    value. *)
Theorem broadcast_to_empty_room (st : Server) (c : SocketId) (room : Room)
    (e : string) (a : Arg) :
  membersOf st room = ∅ →
  socket_to_emit c room e a st =
    (if decide (e ∈ RESERVED_EVENTS) then Thrown (reserved e) st
     else Normal true st) ∧
  (∀ messageData,
     Forall (λ u, membersOf st (_id u) = ∅) (users (chat messageData)) →
     new_message c (Some (sent messageData)) st = Normal tt st) ∧
  (∀ room',
     socket_to_emit c room' e a st =
       if decide (e ∈ RESERVED_EVENTS) then Thrown (reserved e) st
       else Normal true
              (deliver (mkPacket e a)
                 (λ m, if decide (m ∈ membersOf st room' ∖ membersOf st c)
                       then 1 else 0) st)) ∧
  (∀ messageData,
     new_message c (Some (sent messageData)) st =
       Normal tt (deliver (message_packet messageData)
                    (copies st c messageData) st)) ∧
  (∀ received, ¬ runs_through received →
     ∃ st', new_message c received st =
              Thrown (TypeError (failing_read received)) st').
Proof.
  intros Hroom.
  assert (Hemit : ∀ room',
     socket_to_emit c room' e a st =
       if decide (e ∈ RESERVED_EVENTS) then Thrown (reserved e) st
       else Normal true
              (deliver (mkPacket e a)
                 (λ m, if decide (m ∈ membersOf st room' ∖ membersOf st c)
                       then 1 else 0) st)).
  { intros room'. case_decide.
    - by apply socket_to_emit_reserved.
    - by apply socket_to_emit_deliver. }
  split; [|split; [|split; [done|split]]].
  - rewrite Hemit. case_decide; [done|]. rewrite deliver_zero; [done|].
    intros m _. rewrite Hroom. by rewrite decide_False by set_solver.
  - intros messageData Hall.
    rewrite new_message_deliver, deliver_zero; [done|].
    intros m _. unfold copies.
    induction Hall as [|u us Hu _ IH]; [done|].
    rewrite filter_cons_False; [done|]. unfold recipient. set_solver.
  - intros messageData. apply new_message_deliver.
  - intros received Hno. eexists.
    rewrite new_message_outcome at 1. by rewrite decide_False.
Qed.

Lemma broadcast_to_empty_room_witness :
  let st := final Ex.recipient_gone in
  let c := "c1" in
  let e := "message received" in
  let a := MsgArg (sent Ex.hello) in
  socket_to_emit c "u2" e a st =
    (if decide (e ∈ RESERVED_EVENTS) then Thrown (reserved e) st
     else Normal true st) ∧
  (∀ messageData,
     Forall (λ u, membersOf st (_id u) = ∅) (users (chat messageData)) →
     new_message c (Some (sent messageData)) st = Normal tt st) ∧
  (∀ room',
     socket_to_emit c room' e a st =
       if decide (e ∈ RESERVED_EVENTS) then Thrown (reserved e) st
       else Normal true
              (deliver (mkPacket e a)
                 (λ m, if decide (m ∈ membersOf st room' ∖ membersOf st c)
                       then 1 else 0) st)) ∧
  (∀ messageData,
     new_message c (Some (sent messageData)) st =
       Normal tt (deliver (message_packet messageData)
                    (copies st c messageData) st)) ∧
  (∀ received, ¬ runs_through received →
     ∃ st', new_message c received st =
              Thrown (TypeError (failing_read received)) st').
Proof.
  apply (broadcast_to_empty_room (final Ex.recipient_gone) "c1" "u2"
           "message received" (MsgArg (sent Ex.hello))).
  vm_compute. reflexivity.
Defined.

(** What raises: a reserved name, with or without members in the room. *)
Example reserved_name_throws :
  let emit room := socket_to_emit "c1" room "disconnect" NoArg in
  emit "u2" (final Ex.anonymous_sender) =
    Thrown (reserved "disconnect") (final Ex.anonymous_sender) ∧
  emit "u2" (final Ex.recipient_gone) =
    Thrown (reserved "disconnect") (final Ex.recipient_gone).
Proof. split; by vm_compute. Qed.

(** ** Delivery goes through the personal rooms *)

Lemma step_setup_done m uid i st st1 done :
  m ≠ uid → consistent st → ¬ is_join m uid i →
  step i st = Normal tt st1 →
  (m ∈ membersOf st uid ↔ done = true) →
  m ∈ membersOf st1 uid ↔
    match i with
    | Emit id (Setup (Some userData)) =>
        if decide (id = m ∧ _id userData = uid ∧ connected st m)
        then true else done
    | Disconnect id => if decide (id = m) then false else done
    | _ => done
    end = true.
Proof.
  intros Hne Hst Hjoin Hs Hdone.
  assert (Hlive : m ∈ membersOf st uid → connected st m).
  { intros Hm. apply (joined_connected st Hst uid).
    by apply (members_joined st Hst). }
  destruct i as [id|id e|id].
  - unfold step in Hs; case_decide as Hc.
    + by injection Hs as <-.
    + destruct (on_connect_Normal id st) as (st2 & Hs2 & _ & Hm & _).
      rewrite Hs in Hs2. injection Hs2 as <-. simpl. rewrite Hm, <-Hdone.
      case_decide; subst; set_solver.
  - destruct (decide (connected st id)) as [Hc|Hc].
    + destruct (emit_members id e st Hc) as [_ Hm].
      rewrite Hs in Hm. simpl in Hm. rewrite Hm.
      destruct e as [[userData|]|roomId|messageData|name]; simpl in *;
        repeat case_decide; subst; try (rewrite <-Hdone); set_solver.
    + unfold step in Hs. rewrite decide_False in Hs by done.
      injection Hs as <-.
      destruct e as [[userData|]|roomId|messageData|name]; try done.
      case_decide as Hd; [|done]. by destruct Hd as (-> & _ & ?).
  - unfold step in Hs; case_decide as Hc.
    + rewrite (members_close _ _ _ Hst Hs). simpl.
      case_decide; subst; [|rewrite <-Hdone]; set_solver.
    + injection Hs as <-. simpl. case_decide; subst; [|done]. split; [|done].
      intros Hm. by apply Hlive in Hm.
Qed.

Lemma run_setup_done m uid tr st st' done :
  m ≠ uid → consistent st → ¬ Exists (is_join m uid) tr →
  run tr st = Normal tt st' →
  (m ∈ membersOf st uid ↔ done = true) →
  m ∈ membersOf st' uid ↔ setup_done m uid tr st done = true.
Proof.
  intros Hne. revert st done. induction tr as [|i tr IH];
    intros st done Hst Hjoin Hrun Hdone.
  - by injection Hrun as <-.
  - rewrite Exists_cons in Hjoin.
    rewrite run_cons in Hrun.
    pose proof (step_consistent i st Hst) as Hst1.
    destruct (step i st) as [[] st1|] eqn:Hs; [|done].
    simpl in Hst1. cbn [setup_done]. rewrite Hs. cbn [state_of].
    apply IH; [done|tauto|done|].
    apply (step_setup_done m uid i st st1 done); auto.
Qed.

Lemma copies_positive_iff st s messageData m :
  0 < copies st s messageData m ↔
  Exists (recipient st s messageData m) (users (chat messageData)).
Proof.
  unfold copies. induction (users (chat messageData)) as [|u us IH].
  - rewrite Exists_nil. simpl. lia.
  - rewrite Exists_cons, filter_cons. case_decide; simpl; [|tauto].
    split; [auto | lia].
Qed.

(** The claim of C10 as stated fails in both directions.  B has only
    connected and then sent ['join chat'] with the id of the listed user
    [uB] as room: it has not sent ['setup'] and is written A's message.
    And B has sent ['setup'] as [uB] and then ['join chat'] with A's
    socket id as room: it has completed ['setup'] and is not written A's
    message. *)
Lemma setup_neither_needed_nor_enough :
  (let tr := Ex.connect_all ++ [Emit "B" (JoinChat "uB")] in
   let st := final tr in
   run tr init = Normal tt st ∧
   Forall (λ u, setup_done "B" (_id u) tr init false = false)
     (users (chat Ex.hi)) ∧
   ∃ st', step (Emit "A" (NewMessage (Some (sent Ex.hi)))) st =
            Normal tt st' ∧
          queue st "B" = [] ∧ queue st' "B" = [message_packet Ex.hi]) ∧
  (let tr := Ex.connect_all ++
             [Emit "B" (Setup (Some Ex.uB)); Emit "B" (JoinChat "A")] in
   let st := final tr in
   run tr init = Normal tt st ∧
   Ex.uB ∈ users (chat Ex.hi) ∧ _id Ex.uB ≠ _id (sender Ex.hi) ∧
   setup_done "B" (_id Ex.uB) tr init false = true ∧
   ∃ st', step (Emit "A" (NewMessage (Some (sent Ex.hi)))) st =
            Normal tt st' ∧
          queue st' "B" = queue st "B").
Proof.
  split.
  - split; [by vm_compute|]. split; [decide_by_computation|].
    eexists. split; [by vm_compute|]. split; by vm_compute.
  - split; [by vm_compute|]. split; [decide_by_computation|].
    split; [decide_by_computation|]. split; [by vm_compute|].
    eexists. split; by vm_compute.
Qed.

(** C10, amended: the ['new message'] handler delivers through the
    personal rooms of the listed users other than the sender, not through
    the chat room.  In a state reached by a trace, for a socket m outside
    the room named by the sending socket's id, where no listed user id is
    m's own socket id or a room m joined with ['join chat']: m is written
    one copy per listed non-sender user whose personal room holds it, and
    it receives the message exactly when it has sent ['setup'], on its
    current connection, for some listed user other than the sender.
    Joining the chat room of the message changes nothing in this. *)
Theorem delivery_follows_setup (tr : list Input) (st : Server)
    (s m : SocketId) (messageData : MessageData) :
  run tr init = Normal tt st →
  m ∉ membersOf st s →
  Forall (λ u, m ≠ _id u ∧ ¬ Exists (is_join m (_id u)) tr)
    (users (chat messageData)) →
  ∃ st', new_message s (Some (sent messageData)) st = Normal tt st' ∧
    sockets st' !! m =
      (λ q, q ++ replicate (copies st s messageData m)
                   (message_packet messageData)) <$> sockets st !! m ∧
    (0 < copies st s messageData m ↔
       Exists (λ u, _id u ≠ _id (sender messageData) ∧
                    setup_done m (_id u) tr init false = true)
         (users (chat messageData))) ∧
    (∀ st1,
       step (Emit m (JoinChat (chat_id (chat messageData)))) st =
         Normal tt st1 →
       Forall (λ u, _id u ≠ chat_id (chat messageData))
         (users (chat messageData)) →
       s ≠ chat_id (chat messageData) →
       copies st1 s messageData m = copies st s messageData m).
Proof.
  intros Hrun Hexcept Hids.
  pose proof (run_Normal_consistent tr init st consistent_init Hrun) as Hst.
  eexists. split; [apply new_message_deliver|].
  split; [apply sockets_deliver|]. split.
  - rewrite copies_positive_iff.
    rewrite !Exists_exists. rewrite Forall_forall in Hids.
    split; intros (u & Hu & Hr); exists u; (split; [done|]);
      destruct (Hids u Hu) as [Hne Hjoin];
      pose proof (run_setup_done m (_id u) tr init st false Hne
                    consistent_init Hjoin Hrun) as Hiff;
      unfold recipient in *.
    + destruct Hr as [Hsender Hm]. split; [done|]. apply Hiff.
      * unfold membersOf; simpl. rewrite lookup_empty. set_solver.
      * set_solver.
    + destruct Hr as [Hsender Hdone]. split; [done|].
      apply Hiff in Hdone; [set_solver|].
      unfold membersOf; simpl. rewrite lookup_empty. set_solver.
  - intros st1 Hs Hchat Hsock. unfold step in Hs. case_decide as Hc.
    + simpl in Hs.
      assert (Hother : ∀ r, r ≠ chat_id (chat messageData) →
                membersOf st1 r = membersOf st r).
      { intros r Hr. by rewrite (membersOf_join _ _ _ _ _ Hs), decide_False. }
      unfold copies. f_equal. clear Hids.
      induction Hchat as [|u us Hu _ IH]; [done|].
      rewrite !filter_cons, IH.
      assert (Hiff : recipient st1 s messageData m u ↔
                     recipient st s messageData m u).
      { unfold recipient. by rewrite (Hother (_id u)), (Hother s). }
      repeat case_decide; tauto || done.
    + by injection Hs as <-.
Qed.

Lemma delivery_follows_setup_witness :
  let st := final Ex.one_set_up in
  (∃ st', new_message "A" (Some (sent Ex.hi)) st = Normal tt st' ∧
     sockets st' !! "B" =
       (λ q, q ++ replicate (copies st "A" Ex.hi "B")
                    (message_packet Ex.hi)) <$> sockets st !! "B" ∧
     (0 < copies st "A" Ex.hi "B" ↔
        Exists (λ u, _id u ≠ _id (sender Ex.hi) ∧
                     setup_done "B" (_id u) Ex.one_set_up init false = true)
          (users (chat Ex.hi))) ∧
     (∀ st1,
        step (Emit "B" (JoinChat (chat_id (chat Ex.hi)))) st =
          Normal tt st1 →
        Forall (λ u, _id u ≠ chat_id (chat Ex.hi)) (users (chat Ex.hi)) →
        "A" ≠ chat_id (chat Ex.hi) →
        copies st1 "A" Ex.hi "B" = copies st "A" Ex.hi "B")) ∧
  copies st "A" Ex.hi "B" = 1 ∧ copies st "A" Ex.hi "C" = 0.
Proof.
  split; [|by vm_compute].
  apply (delivery_follows_setup Ex.one_set_up (final Ex.one_set_up) "A" "B"
           Ex.hi).
  - vm_compute. reflexivity.
  - decide_by_computation.
  - decide_by_computation.
Defined.

(** * Further properties of the connection handler *)

(** ** What a step does to the queues *)

Lemma connect_sockets id st m :
  sockets (state_of (step (Connect id) st)) !! m =
    if decide (id = m ∧ ¬ connected st id) then Some []
    else sockets st !! m.
Proof.
  unfold step. case_decide as Hc.
  - simpl. rewrite decide_False; [done|tauto].
  - destruct (on_connect_Normal id st) as (st2 & Hs2 & Hso & _).
    rewrite Hs2. simpl. rewrite Hso. case_decide as Hd.
    + destruct Hd as [-> _]. by rewrite lookup_insert_eq.
    + rewrite lookup_insert_ne; [done|]. intros ->. tauto.
Qed.

Lemma disconnect_sockets id st m :
  sockets (state_of (step (Disconnect id) st)) !! m =
    if decide (id = m) then None else sockets st !! m.
Proof.
  unfold step. case_decide as Hc.
  - destruct (on_close_Normal id st) as (st2 & Hs2 & Hso & _).
    rewrite Hs2. simpl. rewrite Hso.
    case_decide; subst; [apply lookup_delete_eq | by apply lookup_delete_ne].
  - simpl. case_decide; subst; [|done]. by apply not_elem_of_dom.
Qed.

(** An event appends packets of the two kinds to the queues, whether its
    listener returns or throws. *)
Lemma emit_sockets id e st m :
  ∃ ext, Forall server_packet ext ∧
    sockets (state_of (step (Emit id e) st)) !! m =
      (λ q, q ++ ext) <$> sockets st !! m.
Proof.
  assert (Hsame : ∃ ext, Forall server_packet ext ∧
            sockets st !! m = (λ q, q ++ ext) <$> sockets st !! m).
  { exists []. split; [done|].
    destruct (sockets st !! m); simpl; by rewrite ?app_nil_r. }
  unfold step. case_decide as Hc; [|done].
  destruct e as [[userData|]|roomId|messageData|name]; unfold on_event;
    try done.
  - destruct (setup_Normal id userData st) as (st1 & st2 & _ & Hs2 & _ & _ & Hso).
    rewrite Hs2. simpl. rewrite Hso, lookup_alter.
    case_decide; subst; [|done].
    eexists. split; [|done]. repeat constructor.
  - destruct (new_message_state id messageData st) as (p & n & Hp & _ & ->).
    exists (replicate (n m) p). split; [by apply Forall_replicate|].
    apply sockets_deliver.
Qed.

(** A step extends the queue of a socket it leaves connected by packets
    of the two kinds. *)
Lemma step_extends i st m q :
  sockets st !! m = Some q → ¬ closes m i →
  ∃ ext, sockets (state_of (step i st)) !! m = Some (q ++ ext) ∧
    Forall server_packet ext.
Proof.
  intros Hq Hclose.
  assert (Hc : connected st m) by (apply elem_of_dom; eauto).
  destruct i as [id|id e|id]; simpl in Hclose.
  - exists []. rewrite connect_sockets, decide_False, app_nil_r; [done|].
    intros [-> ?]. tauto.
  - destruct (emit_sockets id e st m) as (ext & Hext & ->).
    exists ext. by rewrite Hq.
  - exists []. by rewrite disconnect_sockets, decide_False, app_nil_r.
Qed.

Lemma step_queue_packets i st m q' :
  sockets (state_of (step i st)) !! m = Some q' →
  (∀ q, sockets st !! m = Some q → Forall server_packet q) →
  Forall server_packet q'.
Proof.
  intros Hq' Hwf. destruct i as [id|id e|id].
  - rewrite connect_sockets in Hq'.
    case_decide; [by injection Hq' as <-|auto].
  - destruct (emit_sockets id e st m) as (ext & Hext & Hso).
    rewrite Hso in Hq'. destruct (sockets st !! m) as [q|] eqn:Hq; [|done].
    injection Hq' as <-. apply Forall_app. auto.
  - rewrite disconnect_sockets in Hq'. case_decide; [done|auto].
Qed.

(** A property that every step keeps holds in every state a trace
    leads to. *)
Lemma run_invariant (P : Server → Prop) tr st :
  (∀ i st, consistent st → P st → P (state_of (step i st))) →
  consistent st → P st → P (state_of (run tr st)).
Proof.
  intros Hstep. revert st. induction tr as [|i tr IH]; intros st Hst HP;
    [done|].
  rewrite run_cons.
  pose proof (step_consistent i st Hst) as Hst1.
  pose proof (Hstep i st Hst HP) as HP1.
  destruct (step i st) as [[] st1|exn st1]; simpl in *; auto.
Qed.

Lemma reachable_queue_packets tr m q :
  sockets (final tr) !! m = Some q → Forall server_packet q.
Proof.
  revert m q.
  apply (run_invariant
           (λ st, ∀ m q, sockets st !! m = Some q → Forall server_packet q)).
  - intros i st _ HP m q' Hq'. eapply step_queue_packets; eauto.
  - apply consistent_init.
  - intros m q. simpl. by rewrite lookup_empty.
Qed.

(** X1: whatever the clients do, the server only ever writes two kinds
    of packet: ["connected"] without argument and ["message received"]
    with a message.  This holds in every state the server reaches, also
    the one in which a listener has thrown. *)
Theorem server_writes_two_event_names (tr : list Input) :
  let st := final tr in
  (Forall harmless tr → run tr init = Normal tt st) ∧
  ∀ m p, p ∈ queue st m →
    p = mkPacket "connected" NoArg ∨
    ∃ messageData, p = mkPacket "message received" (MsgArg messageData).
Proof.
  intros st. split; [apply run_Normal|].
  intros m p Hp. unfold queue in Hp.
  destruct (sockets st !! m) as [q|] eqn:Hq; simpl in Hp.
  - pose proof (reachable_queue_packets tr m q Hq) as Hwf.
    rewrite Forall_forall in Hwf. by apply Hwf.
  - by apply elem_of_nil in Hp.
Qed.

(** ** The frontend fed with what the server wrote *)

Lemma client_receive_connected b c :
  client_receive b (mkPacket "connected" NoArg) c = setSocketConnected true c.
Proof. by destruct b. Qed.

Lemma client_replay_packets b q c :
  Forall server_packet q →
  let c' := client_replay b q c in
  messages c' = messages c ∧ isTyping c' = isTyping c ∧
  selectedChatCompare c' = selectedChatCompare c ∧
  (socketConnected c' = true ↔
     socketConnected c = true ∨ mkPacket "connected" NoArg ∈ q).
Proof.
  intros Hq. revert c. induction Hq as [|p q Hp _ IH]; intros c; simpl.
  - rewrite elem_of_nil. tauto.
  - destruct (IH (client_receive b p c)) as (Hm & Ht & Hsel & Hconn).
    unfold client_replay in *. rewrite Hm, Ht, Hsel, Hconn, elem_of_cons.
    destruct Hp as [->|[d ->]].
    + rewrite client_receive_connected. simpl. tauto.
    + assert (Hr : client_receive b (mkPacket "message received" (MsgArg d)) c
                   = c)
        by apply no_listener_for_message_received.
      rewrite Hr. split_and!; try done.
      split; [tauto|]. intros [?|[[=]|?]]; tauto.
Qed.

(** X2: whatever queue the server has built for a socket, a frontend of
    either side of the merge that handles it from first packet to last
    ends with the message list, the typing flag and the selected chat it
    started with; only [socketConnected] can change, and it is set exactly
    when it was set before or the queue holds a ["connected"] packet. *)
Theorem frontend_shows_nothing_from_the_socket (tr : list Input)
    (m : SocketId) (b : Branch) (c : Client) :
  let st := final tr in
  (Forall harmless tr → run tr init = Normal tt st) ∧
  let c' := client_replay b (queue st m) c in
  messages c' = messages c ∧ isTyping c' = isTyping c ∧
  selectedChatCompare c' = selectedChatCompare c ∧
  (socketConnected c' = true ↔
     socketConnected c = true ∨ mkPacket "connected" NoArg ∈ queue st m).
Proof.
  intros st. split; [apply run_Normal|]. apply client_replay_packets.
  unfold queue. destruct (sockets st !! m) as [q|] eqn:Hq; simpl; [|done].
  by apply (reachable_queue_packets tr m).
Qed.

(** X3: a ['setup'] with a user object from a connected socket is
    answered with exactly one ["connected"] packet, appended to that
    socket's queue, while every other socket table entry stays as it was;
    a frontend of either side that handles the queue ends with
    [socketConnected] set. *)
Theorem setup_is_acknowledged (tr : list Input) (st : Server) (c : SocketId)
    (userData : User) :
  run tr init = Normal tt st → connected st c →
  ∃ st', step (Emit c (Setup (Some userData))) st = Normal tt st' ∧
    queue st' c = queue st c ++ [mkPacket "connected" NoArg] ∧
    (∀ m, m ≠ c → sockets st' !! m = sockets st !! m) ∧
    ∀ b cl, socketConnected (client_replay b (queue st' c) cl) = true.
Proof.
  intros Hrun Hc.
  assert (Hwf : ∀ m q, sockets st !! m = Some q → Forall server_packet q).
  { intros m q. pose proof (reachable_queue_packets tr m q) as H.
    unfold final in H. by rewrite Hrun in H. }
  destruct (setup_Normal c userData st) as (st1 & st' & _ & Hs & _ & _ & Hso).
  exists st'. split; [unfold step; by rewrite decide_True|].
  apply elem_of_dom in Hc as [q Hq].
  assert (Hq' : queue st' c = queue st c ++ [mkPacket "connected" NoArg]).
  { unfold queue. by rewrite Hso, lookup_alter_eq, Hq. }
  split; [done|]. split.
  - intros m Hm. by rewrite Hso, lookup_alter_ne.
  - intros b cl. rewrite Hq'.
    apply client_replay_packets.
    + apply Forall_app. split; [|repeat constructor].
      unfold queue. rewrite Hq. simpl. eauto.
    + right. apply elem_of_app. right. by left.
Qed.

Lemma setup_is_acknowledged_witness :
  let st := final Ex.connect_all in
  ∃ st', step (Emit "B" (Setup (Some Ex.uB))) st = Normal tt st' ∧
    queue st' "B" = queue st "B" ++ [mkPacket "connected" NoArg] ∧
    (∀ m, m ≠ "B" → sockets st' !! m = sockets st !! m) ∧
    ∀ b cl, socketConnected (client_replay b (queue st' "B") cl) = true.
Proof.
  apply (setup_is_acknowledged Ex.connect_all (final Ex.connect_all) "B"
           Ex.uB).
  - vm_compute. reflexivity.
  - decide_by_computation.
Defined.

(** A ['setup'] without user object throws and is not acknowledged. *)
Example setup_without_user_throws :
  let st := final Ex.connect_all in
  step (Emit "B" (Setup None)) st = Thrown (TypeError "_id") st.
Proof. by vm_compute. Qed.

(** ** Sockets do not interfere *)

Lemma joinedRooms_members st st' c :
  consistent st → consistent st' →
  (∀ r, c ∈ membersOf st' r ↔ c ∈ membersOf st r) →
  joinedRooms st' c = joinedRooms st c.
Proof.
  intros Hst Hst' Hm. apply set_eq. intros r.
  by rewrite <-(members_joined st Hst), <-(members_joined st' Hst').
Qed.

Lemma step_other_members i st c r :
  consistent st → target i ≠ c →
  c ∈ membersOf (state_of (step i st)) r ↔ c ∈ membersOf st r.
Proof.
  intros Hst Hne. destruct i as [id|id e|id]; simpl in Hne.
  - unfold step. case_decide as Hc; [done|].
    destruct (on_connect_Normal id st) as (st2 & Hs2 & _ & Hm & _).
    rewrite Hs2. simpl. rewrite Hm. case_decide; set_solver.
  - destruct (decide (connected st id)) as [Hc|Hc].
    + destruct (emit_members id e st Hc) as [_ Hm]. rewrite Hm.
      case_decide; set_solver.
    + unfold step. by rewrite decide_False.
  - unfold step. case_decide as Hc; [|done].
    destruct (on_close_Normal id st) as (st2 & Hs2 & _).
    rewrite Hs2. simpl. rewrite (members_close _ _ _ Hst Hs2). set_solver.
Qed.

Lemma step_other_connected i st c :
  target i ≠ c →
  connected (state_of (step i st)) c ↔ connected st c.
Proof.
  intros Hne. unfold connected. rewrite !elem_of_dom.
  destruct i as [id|id e|id]; simpl in Hne.
  - rewrite connect_sockets. rewrite decide_False; [done|]. tauto.
  - destruct (emit_sockets id e st c) as (ext & _ & ->).
    by rewrite fmap_is_Some.
  - rewrite disconnect_sockets. by rewrite decide_False.
Qed.

(** X4: an input about one socket (its connection, any of its events, its
    disconnect) changes the rooms of no other socket, whether a listener
    throws on it or not: every other socket stays connected or not as it
    was, and is afterwards a member of exactly the rooms it was a member
    of before. *)
Theorem inputs_leave_other_sockets_rooms (tr : list Input) (st : Server)
    (i : Input) (c : SocketId) :
  run tr init = Normal tt st → target i ≠ c →
  ∃ st', state_of (step i st) = st' ∧
    (harmless i → step i st = Normal tt st') ∧
    (connected st' c ↔ connected st c) ∧
    joinedRooms st' c = joinedRooms st c ∧
    ∀ r, c ∈ membersOf st' r ↔ c ∈ membersOf st r.
Proof.
  intros Hrun Hne.
  pose proof (run_Normal_consistent tr init st consistent_init Hrun) as Hst.
  pose proof (step_consistent i st Hst) as Hst'.
  eexists. split; [done|]. split; [apply step_Normal|].
  assert (Hm : ∀ r, c ∈ membersOf (state_of (step i st)) r ↔
                    c ∈ membersOf st r).
  { intros r. by apply step_other_members. }
  split; [by apply step_other_connected|].
  split; [by apply joinedRooms_members|done].
Qed.

Lemma inputs_leave_other_sockets_rooms_witness :
  let st := final Ex.set_up in
  ∃ st', state_of (step (Disconnect "A") st) = st' ∧
    (harmless (Disconnect "A") → step (Disconnect "A") st = Normal tt st') ∧
    (connected st' "B" ↔ connected st "B") ∧
    joinedRooms st' "B" = joinedRooms st "B" ∧
    ∀ r, "B" ∈ membersOf st' r ↔ "B" ∈ membersOf st r.
Proof.
  apply (inputs_leave_other_sockets_rooms Ex.set_up (final Ex.set_up)
           (Disconnect "A") "B").
  - vm_compute. reflexivity.
  - decide_by_computation.
Defined.

(** ** Queues only grow *)

Lemma run_extends tr st m q :
  sockets st !! m = Some q → Forall (λ i, ¬ closes m i) tr →
  ∃ ext, sockets (state_of (run tr st)) !! m = Some (q ++ ext) ∧
    Forall server_packet ext.
Proof.
  revert st q. induction tr as [|i tr IH]; intros st q Hq Hno.
  - exists []. by rewrite app_nil_r.
  - apply Forall_cons in Hno as [Hi Hno].
    destruct (step_extends i st m q Hq Hi) as (e1 & Hq1 & He1).
    rewrite run_cons.
    destruct (step i st) as [[] st1|exn st1]; simpl in Hq1; [|eauto].
    destruct (IH st1 _ Hq1 Hno) as (e2 & Hq2 & He2).
    exists (e1 ++ e2). rewrite app_assoc. split; [done|].
    by apply Forall_app.
Qed.

(** X5: as long as a socket is not disconnected, what has been written to
    it stays: after any further inputs that do not close it, the socket is
    still connected and its earlier queue is a prefix of its queue, the
    rest being packets written since; this also holds of the state in
    which a listener has thrown. *)
Theorem queues_only_grow (tr1 tr2 : list Input) (st1 : Server)
    (m : SocketId) :
  run tr1 init = Normal tt st1 → connected st1 m →
  Forall (λ i, ¬ closes m i) tr2 →
  ∃ st2 ext, state_of (run tr2 st1) = st2 ∧
    (Forall harmless tr2 → run tr2 st1 = Normal tt st2) ∧
    connected st2 m ∧
    queue st2 m = queue st1 m ++ ext ∧ Forall server_packet ext.
Proof.
  intros Hrun Hc Hno.
  apply elem_of_dom in Hc as [q Hq].
  destruct (run_extends tr2 st1 m q Hq Hno) as (ext & Hq2 & He).
  eexists _, ext. split; [done|]. split; [apply run_Normal|]. split.
  - apply elem_of_dom. eauto.
  - unfold queue. by rewrite Hq, Hq2.
Qed.

Lemma queues_only_grow_witness :
  let tr2 := [Emit "A" (NewMessage (Some (sent Ex.hi))); Disconnect "A";
              Emit "B" (JoinChat "room1")] in
  ∃ st2 ext, state_of (run tr2 (final Ex.set_up)) = st2 ∧
    (Forall harmless tr2 → run tr2 (final Ex.set_up) = Normal tt st2) ∧
    connected st2 "B" ∧
    queue st2 "B" = queue (final Ex.set_up) "B" ++ ext ∧
    Forall server_packet ext.
Proof.
  apply (queues_only_grow Ex.set_up
           [Emit "A" (NewMessage (Some (sent Ex.hi))); Disconnect "A";
            Emit "B" (JoinChat "room1")] (final Ex.set_up) "B").
  - vm_compute. reflexivity.
  - decide_by_computation.
  - decide_by_computation.
Defined.

(** ** Copies follow the list of users *)

Lemma filter_length_iff {A} (P Q : A → Prop) `{∀ x, Decision (P x)}
    `{∀ x, Decision (Q x)} (l : list A) :
  Forall (λ x, P x ↔ Q x) l → length (filter P l) = length (filter Q l).
Proof.
  induction 1 as [|x l Hx _ IH]; [done|].
  rewrite !filter_cons. repeat case_decide; simpl; auto; tauto.
Qed.

(** X6: the handler writes one copy per entry of [chat.users], not per
    user: a socket that is in the personal room of one listed user id,
    other than the sender's, and outside the room of the sending socket,
    gets as many copies of the message as the list has entries with that
    id. *)
Theorem one_copy_per_list_entry (st : Server) (s m : SocketId)
    (uid : string) (messageData : MessageData) :
  m ∉ membersOf st s →
  uid ≠ _id (sender messageData) →
  Forall (λ u, m ∈ membersOf st (_id u) ↔ _id u = uid)
    (users (chat messageData)) →
  ∃ st', new_message s (Some (sent messageData)) st = Normal tt st' ∧
    sockets st' !! m =
      (λ q, q ++ replicate
                   (length (filter (λ u, _id u = uid)
                              (users (chat messageData))))
                   (message_packet messageData)) <$> sockets st !! m.
Proof.
  intros Hex Hne Hall. eexists. split; [apply new_message_deliver|].
  rewrite sockets_deliver. unfold copies.
  erewrite (filter_length_iff _ (λ u, _id u = uid)); [done|].
  eapply Forall_impl; [exact Hall|]. intros u Hu; simpl in *.
  unfold recipient. split.
  - intros [_ Hm]. apply Hu. set_solver.
  - intros Hid. split; [congruence|]. apply Hu in Hid. set_solver.
Qed.

Lemma one_copy_per_list_entry_witness :
  let st := final Ex.set_up in
  ∃ st', new_message "A" (Some (sent Ex2.twice)) st = Normal tt st' ∧
    sockets st' !! "B" =
      (λ q, q ++ replicate
                   (length (filter (λ u, _id u = "uB")
                              (users (chat Ex2.twice))))
                   (message_packet Ex2.twice)) <$> sockets st !! "B".
Proof.
  apply (one_copy_per_list_entry (final Ex.set_up) "A" "B" "uB" Ex2.twice).
  - decide_by_computation.
  - decide_by_computation.
  - decide_by_computation.
Defined.

(** The scenario of the witness: B is written the message twice. *)
Example listed_twice_delivered_twice :
  ∃ st', new_message "A" (Some (sent Ex2.twice)) (final Ex.set_up) =
           Normal tt st' ∧
    queue st' "B" =
      queue (final Ex.set_up) "B" ++
      [message_packet Ex2.twice; message_packet Ex2.twice].
Proof. eexists. split; by vm_compute. Qed.

(** X7: the personal room of the sender is skipped: a socket that is in
    no personal room of a listed user except, possibly, the sender's (for
    instance another device of the sender) is written nothing, whatever
    chat rooms it has joined. *)
Theorem senders_other_devices_get_nothing (st : Server) (s m : SocketId)
    (messageData : MessageData) :
  Forall (λ u, m ∈ membersOf st (_id u) → _id u = _id (sender messageData))
    (users (chat messageData)) →
  ∃ st', new_message s (Some (sent messageData)) st = Normal tt st' ∧
    sockets st' !! m = sockets st !! m.
Proof.
  intros Hall. eexists. split; [apply new_message_deliver|].
  rewrite sockets_deliver.
  assert (Hzero : copies st s messageData m = 0).
  { unfold copies. induction Hall as [|u us Hu _ IH]; [done|].
    rewrite filter_cons_False; [done|]. unfold recipient. set_solver. }
  rewrite Hzero. destruct (sockets st !! m); simpl; [|done].
  by rewrite app_nil_r.
Qed.

Lemma senders_other_devices_get_nothing_witness :
  let st := final Ex2.two_devices in
  ∃ st', new_message "A" (Some (sent Ex.hi)) st = Normal tt st' ∧
    sockets st' !! "B" = sockets st !! "B".
Proof.
  apply (senders_other_devices_get_nothing (final Ex2.two_devices) "A" "B"
           Ex.hi).
  decide_by_computation.
Defined.

(** ** A new connection starts from nothing *)

(** X8: a socket that connects to a reachable server in which its id is
    not connected starts with an empty queue and is a member of the room
    named by its own id and of no other room, whatever that id did on an
    earlier connection. *)
Theorem new_connection_starts_empty (tr : list Input) (st : Server)
    (c : SocketId) :
  run tr init = Normal tt st → ¬ connected st c →
  ∃ st', step (Connect c) st = Normal tt st' ∧
    connected st' c ∧ queue st' c = [] ∧
    joinedRooms st' c = {[c]} ∧
    ∀ r, c ∈ membersOf st' r ↔ r = c.
Proof.
  intros Hrun Hc.
  pose proof (run_Normal_consistent tr init st consistent_init Hrun) as Hst.
  destruct (on_connect_Normal c st) as (st' & Hs & Hso & Hm & Hj).
  assert (Hnone : ∀ r, r ∉ joinedRooms st c).
  { intros r Hr. by apply Hc, (joined_connected st Hst r). }
  exists st'. split; [unfold step; by rewrite decide_False|].
  split; [|split; [|split]].
  - unfold connected. rewrite Hso, dom_insert_L. set_solver.
  - unfold queue. by rewrite Hso, lookup_insert_eq.
  - rewrite Hj, decide_True by done. set_solver.
  - intros r. rewrite Hm.
    assert (c ∉ membersOf st r).
    { rewrite (members_joined st Hst). apply Hnone. }
    case_decide; set_solver.
Qed.

Lemma new_connection_starts_empty_witness :
  let st := final (Ex.set_up ++ [Disconnect "B"]) in
  ∃ st', step (Connect "B") st = Normal tt st' ∧
    connected st' "B" ∧ queue st' "B" = [] ∧
    joinedRooms st' "B" = {["B"]} ∧
    ∀ r, "B" ∈ membersOf st' r ↔ r = "B".
Proof.
  apply (new_connection_starts_empty (Ex.set_up ++ [Disconnect "B"])
           (final (Ex.set_up ++ [Disconnect "B"])) "B").
  - vm_compute. reflexivity.
  - decide_by_computation.
Defined.

(** ** No event takes a socket out of a room *)



(** * The REST middleware *)

Module RestFacts.
Import Rest.

(** ** Splitting *)

Lemma split_nonempty sep s : split sep s ≠ [].
Proof.
  destruct s as [|c s]; simpl; [done|].
  destruct (Ascii.eqb c sep); [done|]. by destruct (split sep s).
Qed.

Lemma split_without_separator sep s :
  contains sep s = false → split sep s = [s].
Proof.
  induction s as [|c s IH]; simpl; [done|].
  intros [Hc Hs]%orb_false_elim. rewrite Hc, IH; done.
Qed.

Lemma split_at_separator sep a b :
  contains sep a = false →
  split sep (a +:+ String sep b) = a :: split sep b.
Proof.
  induction a as [|c a IH]; simpl.
  - intros _. by rewrite Ascii.eqb_refl.
  - intros [Hc Ha]%orb_false_elim. by rewrite Hc, IH.
Qed.

Lemma split_bearer token :
  contains space token = false →
  split space (bearer token) = ["Bearer"; token].
Proof.
  intros Ht. unfold bearer.
  change ("Bearer " +:+ token) with ("Bearer" +:+ String space token).
  rewrite split_at_separator by done. by rewrite split_without_separator.
Qed.

Lemma bearer_starts_with_Bearer token :
  truthy (bearer token) && startsWith "Bearer" (bearer token) = true.
Proof. done. Qed.

(** ** [protect] *)

(** X9: [protect] of the interview examples never lets a request
    through without a user.  It either answers 401 with one of its three
    messages, or calls [next] with [req.user] set to a stored user,
    without its password, whose id is the one the second
    space-separated field of a header starting with ["Bearer"] verifies
    to. *)
Theorem protect_passes_only_known_users
    (jwt_verify : option string → Result string) (db : Users)
    (req : Request) :
  (∃ m, protect jwt_verify db req = Sent 401 (message_body m) ∧
        m ∈ ["User not found"; "Not authorized, token failed";
             "Not authorized, no token"]) ∨
  (∃ header id u,
      authorization req = Some header ∧
      startsWith "Bearer" header = true ∧
      jwt_verify (split space header !! 1) = Ok id ∧
      db !! id = Some u ∧
      protect jwt_verify db req =
        Next (set_user req (Some (select_minus_password u))) ∧
      password (select_minus_password u) = None).
Proof.
  unfold protect. destruct (authorization req) as [header|] eqn:Hh.
  - destruct (truthy header && startsWith "Bearer" header) eqn:Hb.
    + apply andb_prop in Hb as [_ Hb].
      destruct (jwt_verify (split space header !! 1)) as [id|err] eqn:Hv.
      * unfold findById_select. destruct (db !! id) as [u|] eqn:Hu; simpl.
        -- right. by exists header, id, u.
        -- left. eexists. split; [done|]. set_solver.
      * left. eexists. split; [done|]. set_solver.
    + left. eexists. split; [done|]. set_solver.
  - left. eexists. split; [done|]. set_solver.
Qed.

(** X10: the header the frontend builds, ["Bearer "] followed by the
    token, is read back by both versions of [protect] as that token,
    provided the token has no space in it: when the token verifies to
    the id of a stored user, the request goes on with that user, without
    the password, as [req.user]. *)
Theorem frontend_header_passes_protect
    (jwt_verify : option string → Result string) (db : Users)
    (req : Request) (token id captured : string) (u : UserDoc) :
  contains space token = false →
  jwt_verify (Some token) = Ok id →
  db !! id = Some u →
  authorization req = Some (bearer token) →
  split space (bearer token) !! 1 = Some token ∧
  protect jwt_verify db req =
    Next (set_user req (Some (select_minus_password u))) ∧
  protect_project jwt_verify captured db req =
    Next (set_user req (Some (select_minus_password u))).
Proof.
  intros Ht Hv Hu Hh.
  assert (Hs : split space (bearer token) !! 1 = Some token)
    by by rewrite split_bearer.
  split; [done|]. split.
  - unfold protect. rewrite Hh, bearer_starts_with_Bearer, Hs, Hv.
    unfold findById_select. by rewrite Hu.
  - unfold protect_project, asyncHandler, protect_fn.
    rewrite Hh, Hs, Hv. unfold findById_select. by rewrite Hu.
Qed.

Lemma frontend_header_passes_protect_witness :
  let req := mkRequest (Some (bearer "jwt.65a1")) "/api/message" None in
  split space (bearer "jwt.65a1") !! 1 = Some "jwt.65a1" ∧
  protect toy_verify toy_users req =
    Next (set_user req (Some (select_minus_password alice))) ∧
  protect_project toy_verify "" toy_users req =
    Next (set_user req (Some (select_minus_password alice))).
Proof.
  apply (frontend_header_passes_protect toy_verify toy_users
           (mkRequest (Some (bearer "jwt.65a1")) "/api/message" None)
           "jwt.65a1" "65a1" "" alice).
  - reflexivity.
  - reflexivity.
  - vm_compute. reflexivity.
  - reflexivity.
Defined.

(** X11: the project's [protect], behind [asyncHandler] and
    [errorHandler], never answers 401.  A request without an
    [Authorization] header is answered 500 with the message of the type
    error; a token that [jwt.verify] rejects is answered 500 with the
    message of that error; and a token that verifies to the id of no
    stored user lets the request go on with no [req.user]. *)
Theorem project_protect_never_answers_401
    (jwt_verify : option string → Result string) (node_env : option string)
    (captured : string) (db : Users) (req : Request) :
  let outcome := respond node_env (protect_project jwt_verify captured db req) in
  (∀ payload, outcome ≠ Sent 401 payload) ∧
  (authorization req = None →
   ∃ stack_field, outcome =
     Sent 500 (JObj [("message",
                      JStr "Cannot read properties of undefined (reading 'split')");
                     ("stack", stack_field)])) ∧
  (∀ header err, authorization req = Some header →
     jwt_verify (split space header !! 1) = Throw err →
     ∃ stack_field, outcome =
       Sent 500 (JObj [("message", JStr (message err));
                       ("stack", stack_field)])) ∧
  (∀ header id, authorization req = Some header →
     jwt_verify (split space header !! 1) = Ok id → db !! id = None →
     outcome = Next (set_user req None)).
Proof.
  unfold protect_project, asyncHandler, protect_fn; simpl.
  destruct (authorization req) as [header|] eqn:Hh.
  - destruct (jwt_verify (split space header !! 1)) as [id|err] eqn:Hv;
      simpl.
    + split; [done|]. split; [done|]. split.
      * intros h e [= <-] Hv'. by rewrite Hv in Hv'.
      * intros h i [= <-] Hv' Hu. rewrite Hv in Hv'. injection Hv' as <-.
        unfold findById_select. by rewrite Hu.
    + split; [done|]. split; [done|]. split.
      * intros h e [= <-] Hv'. rewrite Hv in Hv'. injection Hv' as <-.
        by eexists.
      * intros h i [= <-] Hv'. by rewrite Hv in Hv'.
  - simpl. split; [done|]. split; [by eexists|]. done.
Qed.

(** ** Error middleware *)

(** X12: [errorHandler] never answers 200: it keeps a status other than
    200 that was set before the error and answers 500 otherwise, with the
    message of the error; in production the stack is [null].  A request
    no route matches, which reaches [notFound], is answered 404 with
    ["Not Found - "] followed by its URL. *)
Theorem errors_are_never_answered_200 (node_env : option string)
    (err : Error) (res_statusCode : nat) (captured : string) (req : Request) :
  (∃ statusCode stack_field,
      errorHandler node_env err res_statusCode =
        Sent statusCode (JObj [("message", JStr (message err));
                               ("stack", stack_field)]) ∧
      statusCode ≠ 200 ∧
      (res_statusCode ≠ 200 → statusCode = res_statusCode) ∧
      (res_statusCode = 200 → statusCode = 500) ∧
      (node_env = Some "production" → stack_field = JNull) ∧
      (node_env ≠ Some "production" → stack_field = JStr (stack err))) ∧
  ∃ stack_field,
    respond node_env (notFound captured req) =
      Sent 404 (JObj [("message", JStr ("Not Found - " +:+ originalUrl req));
                      ("stack", stack_field)]).
Proof.
  split.
  - unfold errorHandler. eexists _, _. split; [done|].
    destruct (Nat.eqb_spec res_statusCode 200); case_decide; naive_solver.
  - by eexists.
Qed.

End RestFacts.


(** * Input validation *)

Module ValidateFacts.
Import Validate.

(** ** The matcher decides the pattern *)

Lemma matches_cat_iff r1 r2 s :
  matches (Cat r1 r2) s ↔
  ∃ s1 s2, s = s1 ++ s2 ∧ matches r1 s1 ∧ matches r2 s2.
Proof.
  split.
  - inversion 1; subst. eauto.
  - intros (s1 & s2 & -> & H1 & H2). by constructor.
Qed.

Lemma matches_alt_iff r1 r2 s :
  matches (Alt r1 r2) s ↔ matches r1 s ∨ matches r2 s.
Proof.
  split.
  - inversion 1; subst; tauto.
  - intros [?|?]; [by apply matches_alt_l | by apply matches_alt_r].
Qed.

Lemma matches_class_iff p s :
  matches (Class p) s ↔ ∃ c, s = [c] ∧ p c = true.
Proof.
  split.
  - inversion 1; subst. eauto.
  - intros (c & -> & Hc). by constructor.
Qed.

Lemma nullable_matches r : nullable r = true ↔ matches r [].
Proof.
  induction r as [| |p|r1 IH1 r2 IH2|r1 IH1 r2 IH2|r IH]; simpl.
  - split; [done|]. inversion 1.
  - split; [constructor|done].
  - split; [done|]. inversion 1.
  - rewrite andb_true_iff, IH1, IH2, matches_cat_iff. split.
    + intros [H1 H2]. by exists [], [].
    + intros (s1 & s2 & Heq & H1 & H2). symmetry in Heq.
      by apply app_eq_nil in Heq as [-> ->].
  - by rewrite orb_true_iff, IH1, IH2, matches_alt_iff.
  - split; [constructor|done].
Qed.

Lemma matches_star_cons r c s :
  matches (Star r) (c :: s) →
  ∃ s1 s2, s = s1 ++ s2 ∧ matches r (c :: s1) ∧ matches (Star r) s2.
Proof.
  intros H. remember (Star r) as r' eqn:Hr. remember (c :: s) as s' eqn:Hs.
  revert s Hs. induction H as [| | | | | |r0 s1 s2 H1 IH1 H2 IH2];
    intros t Ht; try done.
  injection Hr as ->. destruct s1 as [|c1 s1]; simpl in Ht.
  - by apply IH2.
  - injection Ht as -> <-. eauto.
Qed.

Lemma matches_cat_cons r1 r2 c s :
  matches (Cat r1 r2) (c :: s) ↔
  (∃ s1 s2, s = s1 ++ s2 ∧ matches r1 (c :: s1) ∧ matches r2 s2) ∨
  (matches r1 [] ∧ matches r2 (c :: s)).
Proof.
  rewrite matches_cat_iff. split.
  - intros (s1 & s2 & Heq & H1 & H2).
    destruct s1 as [|c1 s1]; simpl in Heq.
    + right. by subst.
    + injection Heq as -> ->. left. eauto.
  - intros [(s1 & s2 & -> & H1 & H2)|[H1 H2]].
    + by exists (c :: s1), s2.
    + by exists [], (c :: s).
Qed.

Lemma deriv_matches c r s : matches (deriv c r) s ↔ matches r (c :: s).
Proof.
  revert s. induction r as [| |p|r1 IH1 r2 IH2|r1 IH1 r2 IH2|r IH];
    intros s; simpl.
  - split; inversion 1.
  - split; inversion 1.
  - rewrite matches_class_iff. destruct (p c) eqn:Hp; split.
    + inversion 1. by exists c.
    + intros (c' & ? & ?). simplify_eq. constructor.
    + inversion 1.
    + intros (c' & ? & ?). simplify_eq. congruence.
  - assert (Hcat : matches (Cat (deriv c r1) r2) s ↔
                   ∃ s1 s2, s = s1 ++ s2 ∧ matches r1 (c :: s1) ∧
                            matches r2 s2).
    { rewrite matches_cat_iff. by setoid_rewrite IH1. }
    rewrite matches_cat_cons. destruct (nullable r1) eqn:Hn.
    + apply nullable_matches in Hn.
      rewrite matches_alt_iff, Hcat, IH2. tauto.
    + rewrite Hcat. split; [tauto|]. intros [?|[H1 _]]; [done|].
      apply nullable_matches in H1. congruence.
  - by rewrite !matches_alt_iff, IH1, IH2.
  - rewrite matches_cat_iff. split.
    + intros (s1 & s2 & -> & H1 & H2).
      apply (matches_star_app _ (c :: s1)); [by apply IH|done].
    + intros (s1 & s2 & -> & H1 & H2)%matches_star_cons.
      exists s1, s2. split; [done|]. split; [by apply IH|done].
Qed.

Lemma test_matches r s : test r s = true ↔ matches r s.
Proof.
  revert r. induction s as [|c s IH]; intros r; simpl.
  - apply nullable_matches.
  - by rewrite IH, deriv_matches.
Qed.

(** ** The email pattern *)

Lemma matches_star_class p s :
  matches (Star (Class p)) s ↔ Forall (λ c, p c = true) s.
Proof.
  split.
  - intros H. remember (Star (Class p)) as r eqn:Hr.
    induction H as [| | | | | |r0 s1 s2 H1 IH1 H2 IH2]; try done.
    injection Hr as ->. apply matches_class_iff in H1 as (c & -> & Hc).
    constructor; auto.
  - induction 1 as [|c s Hc _ IH]; [constructor|].
    apply (matches_star_app _ [c]); [by constructor|done].
Qed.

Lemma matches_plus_class p s :
  matches (Plus (Class p)) s ↔ s ≠ [] ∧ Forall (λ c, p c = true) s.
Proof.
  unfold Plus. rewrite matches_cat_iff. split.
  - intros (s1 & s2 & -> & (c & -> & Hc)%matches_class_iff & H2).
    apply matches_star_class in H2. split; [done|]. by constructor.
  - intros [Hne Hall]. destruct Hall as [|c s Hc Hs]; [done|].
    exists [c], s. split; [done|]. split; [by constructor|].
    by apply matches_star_class.
Qed.

Lemma matches_chr_cat c r s :
  matches (Cat (Chr c) r) s ↔ ∃ s', s = c :: s' ∧ matches r s'.
Proof.
  rewrite matches_cat_iff. split.
  - intros (s1 & s2 & -> & (c' & -> & Hc)%matches_class_iff & H2).
    apply N.eqb_eq in Hc as <-. eauto.
  - intros (s' & -> & Hr). exists [c], s'. split; [done|].
    split; [|done]. constructor. apply N.eqb_refl.
Qed.

(** X13: the email pattern accepts exactly the strings made of a
    non-empty part, an ["@"], a non-empty part, a ["."] and a non-empty
    part, none of the parts containing white space; so an accepted
    string has at least five code units and no white space at all, and
    any further ["@"] or ["."] inside the parts is accepted too. *)
Theorem email_pattern_accepts_exactly (s : JsString) :
  test emailRegex s = true ↔ email_shape s.
Proof.
  rewrite test_matches. unfold emailRegex, email_shape.
  assert (Hns : ∀ l, Forall (λ c, not_space c = true) l ↔
                     Forall (λ x, is_space x = false) l).
  { intros l. apply Forall_proper; [|done]. intros x. unfold not_space.
    by rewrite negb_true_iff. }
  split.
  - intros (a & s1 & -> & [Ha Hfa]%matches_plus_class & H)%matches_cat_iff.
    apply matches_chr_cat in H as (s2 & -> & H).
    apply matches_cat_iff in H
      as (b & s3 & -> & [Hb Hfb]%matches_plus_class & H).
    apply matches_chr_cat in H as (c & -> & [Hc Hfc]%matches_plus_class).
    exists a, b, c. split; [done|]. split_and!; try done.
    rewrite !Forall_app, <-!Hns. done.
  - intros (a & b & c & -> & Ha & Hb & Hc & Hall).
    rewrite !Forall_app, <-!Hns in Hall. destruct Hall as (Hfa & Hfb & Hfc).
    apply matches_cat_iff. exists a, (64%N :: b ++ 46%N :: c).
    split; [done|]. split; [by apply matches_plus_class|].
    apply matches_chr_cat. eexists. split; [done|].
    apply matches_cat_iff. exists b, (46%N :: c).
    split; [done|]. split; [by apply matches_plus_class|].
    apply matches_chr_cat. eexists. split; [done|].
    by apply matches_plus_class.
Qed.

(** The pattern on a few addresses. *)
Example email_pattern_examples :
  test emailRegex (of_string "a@b.c") = true ∧
  test emailRegex (of_string "a@@b..c") = true ∧
  test emailRegex (of_string "a@b") = false ∧
  test emailRegex (of_string "@b.c") = false ∧
  test emailRegex (of_string "a b@c.d") = false.
Proof. by vm_compute. Qed.

(** ** [validateInput] *)

Section validateInput_facts.
Context {Number : Type} (is_zero : Number → bool)
  (Number_toString : Number → JsString) (Number_lt_6 : Number → bool)
  (String_lt_6 : JsString → bool).

Lemma shape_nonempty s : email_shape s → s ≠ [].
Proof. intros (a & b & c & -> & Ha & _). by destruct a. Qed.

(** X14: [validateInput] lets a request through exactly when its email
    is truthy and converts to a string of the accepted shape, and its
    password is truthy and has no [length] below six.  For an email and
    a password that are strings this is: the email has the accepted shape
    and the password has at least six code units.  But a password that
    is a number other than zero, or [true], has no [length] and passes
    with any accepted email.  A missing or badly shaped email is
    reported before the password is looked at, and every rejection is a
    400. *)
Theorem validateInput_passes_exactly (body : Credentials Number) :
  let validate :=
    validateInput is_zero Number_toString Number_lt_6 String_lt_6 in
  (validate body = Passed ↔
     (∃ e s, email body = Some e ∧ truthy is_zero (Some e) = true ∧
             ToString Number_toString e = Some s ∧ email_shape s) ∧
     (∃ p, password body = Some p ∧ truthy is_zero (Some p) = true ∧
           length_lt_6 Number_toString Number_lt_6 String_lt_6 p =
             Some false)) ∧
  (∀ e p, email body = Some (VStr e) → password body = Some (VStr p) →
     (validate body = Passed ↔ email_shape e ∧ 6 ≤ length p)) ∧
  (∀ e p, email body = Some (VStr e) → email_shape e →
     password body = Some p →
     p = VBool true ∨ (∃ n, p = VNum n ∧ is_zero n = false) →
     validate body = Passed) ∧
  ((∀ e, email body = Some e → truthy is_zero (Some e) = true →
      ∃ s, ToString Number_toString e = Some s ∧ ¬ email_shape s) →
   validate body = Rejected 400 "Invalid email") ∧
  (∀ statusCode message,
     validate body = Rejected statusCode message → statusCode = 400).
Proof.
  intros validate.
  assert (Hexact : validate body = Passed ↔
     (∃ e s, email body = Some e ∧ truthy is_zero (Some e) = true ∧
             ToString Number_toString e = Some s ∧ email_shape s) ∧
     (∃ p, password body = Some p ∧ truthy is_zero (Some p) = true ∧
           length_lt_6 Number_toString Number_lt_6 String_lt_6 p =
             Some false)).
  { unfold validate, validateInput.
    destruct (email body) as [e|] eqn:He; cbn [mbind option_bind];
      [|simpl; split; [done|by intros [(? & ? & [=] & _) _]]].
    destruct (truthy is_zero (Some e)) eqn:Hte;
      [|split; [done|by intros [(? & ? & [= <-] & ? & _) _]; congruence]].
    destruct (ToString Number_toString e) as [s|] eqn:Hs; cbn [fmap option_fmap option_map];
      [|split; [done|by intros [(? & ? & [= <-] & _ & ? & _) _]; congruence]].
    destruct (test emailRegex s) eqn:Ht; cbn [negb].
    - apply email_pattern_accepts_exactly in Ht.
      destruct (password body) as [p|] eqn:Hp; cbn [mbind option_bind];
        [|simpl; split; [done|by intros [_ (? & [=] & _)]]].
      destruct (truthy is_zero (Some p)) eqn:Htp;
        [|split; [done|by intros [_ (? & [= <-] & ? & _)]; congruence]].
      destruct (length_lt_6 _ _ _ p) as [[]|] eqn:Hl.
      + split; [done|]. intros [_ (? & [= <-] & _ & ?)]. congruence.
      + split; [|done]. intros _. split; eauto 10.
      + split; [done|]. intros [_ (? & [= <-] & _ & ?)]. congruence.
    - split; [done|]. intros [(? & s' & [= <-] & _ & Hs' & Hshape) _].
      rewrite Hs in Hs'. injection Hs' as <-.
      apply email_pattern_accepts_exactly in Hshape. congruence. }
  split; [done|]. split; [|split; [|split]].
  - intros e p He Hp. rewrite Hexact, He, Hp. split.
    + intros [(? & ? & [= <-] & _ & [= <-] & Hshape)
              (? & [= <-] & _ & Hlen)].
      split; [done|]. simpl in Hlen. injection Hlen as Hlen.
      by apply Nat.ltb_ge in Hlen.
    + intros [Hshape Hlen]. split.
      * exists (VStr e), e. split_and!; try done. simpl.
        apply shape_nonempty in Hshape. by rewrite bool_decide_false.
      * exists (VStr p). split_and!; try done.
        -- simpl. rewrite bool_decide_false; [done|].
           intros ->. simpl in Hlen. lia.
        -- simpl. f_equal. by apply Nat.ltb_ge.
  - intros e p He Hshape Hp Hkind. apply Hexact. rewrite He, Hp. split.
    + exists (VStr e), e. split_and!; try done. simpl.
      apply shape_nonempty in Hshape. by rewrite bool_decide_false.
    + exists p. split; [done|].
      destruct Hkind as [->|(n & -> & Hn)]; simpl; by rewrite ?Hn.
  - intros Hbad. unfold validate, validateInput.
    destruct (truthy is_zero (email body)) eqn:Hte; [|done].
    destruct (email body) as [e|] eqn:He; [|done].
    destruct (Hbad e eq_refl Hte) as (s & Hs & Hshape).
    cbn [mbind option_bind]. rewrite Hs. simpl.
    rewrite <-email_pattern_accepts_exactly in Hshape.
    by destruct (test emailRegex s).
  - intros statusCode message. unfold validate, validateInput.
    repeat case_match; congruence.
Qed.

End validateInput_facts.

(** Passwords that are not strings, and an email that is an array. *)
Example validateInput_examples :
  let address := VStr (of_string "ann@example.com") in
  toy_validate (mkCredentials (Some address) (Some (VStr (of_string "12345"))))
    = Rejected 400 "Password must be at least 6 characters" ∧
  toy_validate (mkCredentials (Some address) (Some (VNum 12345%Z))) = Passed ∧
  toy_validate (mkCredentials (Some address) (Some (VNum 0%Z)))
    = Rejected 400 "Password must be at least 6 characters" ∧
  toy_validate (mkCredentials (Some address) (Some (VBool true))) = Passed ∧
  toy_validate (mkCredentials (Some address) (Some (VArr []))) =
    Rejected 400 "Password must be at least 6 characters" ∧
  toy_validate (mkCredentials (Some (VArr [address]))
                  (Some (VStr (of_string "secret")))) = Passed ∧
  toy_validate (mkCredentials
                  (Some (VObj [(of_string "toString", VNull)]))
                  (Some (VStr (of_string "secret")))) = Threw ∧
  toy_validate (mkCredentials (Some (VObj []))
                  (Some (VStr (of_string "secret")))) =
    Rejected 400 "Invalid email".
Proof. by vm_compute. Qed.

End ValidateFacts.
(** * The controllers *)

Module ApiFacts.
Import Rest Api.

(** ** Looking documents up *)

Lemma find_app_None {A} (f : A → bool) (l1 l2 : list A) :
  List.find f l1 = None → List.find f (l1 ++ l2) = List.find f l2.
Proof.
  induction l1 as [|x l1 IH]; simpl; [done|].
  destruct (f x); [done|apply IH].
Qed.

Lemma find_app_Some {A} (f : A → bool) (l1 l2 : list A) x :
  List.find f l1 = Some x → List.find f (l1 ++ l2) = Some x.
Proof.
  induction l1 as [|y l1 IH]; simpl; [done|].
  destruct (f y); [done|apply IH].
Qed.

Lemma find_None_Forall {A} (f : A → bool) (l : list A) :
  List.find f l = None ↔ Forall (λ x, f x = false) l.
Proof.
  induction l as [|x l IH]; simpl.
  - split; [constructor|done].
  - rewrite Forall_cons. destruct (f x); [|rewrite IH]; naive_solver.
Qed.

Lemma absent_false v : absent v = false → ∃ s, v = Some s ∧ s ≠ "".
Proof.
  destruct v as [s|]; simpl; [|done]. unfold truthy.
  rewrite negb_false_iff, negb_true_iff. intros Hs%String.eqb_neq. eauto.
Qed.

(** ** Accounts *)

(** X15: registering and then logging in with the same email and
    password succeeds, whatever salt was drawn and whenever the two
    requests arrive, provided [bcrypt.compare] accepts a password against
    its own hash: for a body with non-empty name, email and password and
    an email no stored user has, [registerUser] answers 201 and stores
    the user with the hash, not the password, and [authUser] on the
    resulting store answers 200 with the same id, name, email and
    picture.  Each answer carries the token signed for that id at the
    time of its own request. *)
Theorem register_then_login
    (bcrypt_hash : string → string → string)
    (bcrypt_compare : string → string → bool)
    (jwt_sign : string → nat → string)
    (new_id salt captured name email password : string)
    (registered logged_in : nat) (body : Body) (db : Store) :
  (∀ p s, bcrypt_compare p (bcrypt_hash p s) = true) →
  body !! "name" = Some name → body !! "email" = Some email →
  body !! "password" = Some password →
  name ≠ "" → email ≠ "" → password ≠ "" →
  Forall (λ u, Rest.email u ≠ email) (user_docs db) →
  ∃ pic db',
    registerUser bcrypt_hash jwt_sign new_id salt captured registered body db =
      (Replied 201
         (AuthInfo new_id name email pic (jwt_sign new_id registered)),
       db') ∧
    user_docs db' =
      user_docs db ++
      [mkUserDoc new_id name email (Some (bcrypt_hash password salt)) pic] ∧
    authUser bcrypt_compare jwt_sign captured logged_in email password db' =
      (Replied 200
         (AuthInfo new_id name email pic (jwt_sign new_id logged_in)),
       db').
Proof.
  intros Hbcrypt Hn He Hp Hn' He' Hp' Hfresh.
  assert (Hnone : List.find (λ u, String.eqb (Rest.email u) email)
                    (user_docs db) = None).
  { apply find_None_Forall. eapply Forall_impl; [exact Hfresh|].
    intros u Hu. by apply String.eqb_neq. }
  unfold registerUser, absent, truthy. rewrite Hn, He, Hp. simpl.
  apply String.eqb_neq in Hn', He', Hp'. rewrite Hn', He', Hp'. simpl.
  rewrite Hnone. eexists _, _. split; [reflexivity|]. split; [reflexivity|].
  unfold authUser. simpl. rewrite find_app_None by done. simpl.
  rewrite String.eqb_refl. unfold matchPassword; simpl.
  by rewrite Hbcrypt.
Qed.

Lemma register_then_login_witness :
  let body : Body :=
    {[ "name" := "Dan"; "email" := "dan@example.com";
       "password" := "secret" ]} in
  ∃ pic db',
    registerUser toy_hash toy_token "uD" "salt" "" 100 body toy_store =
      (Replied 201
         (AuthInfo "uD" "Dan" "dan@example.com" pic (toy_token "uD" 100)),
       db') ∧
    user_docs db' =
      user_docs toy_store ++
      [mkUserDoc "uD" "Dan" "dan@example.com"
         (Some (toy_hash "secret" "salt")) pic] ∧
    authUser toy_compare toy_token "" 160 "dan@example.com" "secret" db' =
      (Replied 200
         (AuthInfo "uD" "Dan" "dan@example.com" pic (toy_token "uD" 160)),
       db').
Proof.
  apply (register_then_login toy_hash toy_compare toy_token "uD" "salt" ""
           "Dan" "dan@example.com" "secret" 100 160).
  - intros p s. apply String.eqb_refl.
  - vm_compute. reflexivity.
  - vm_compute. reflexivity.
  - vm_compute. reflexivity.
  - done.
  - done.
  - done.
  - apply (bool_decide_unpack _). vm_compute. exact I.
Defined.

(** The two tokens of the witness differ, as the times of the requests
    do. *)
Example tokens_differ_with_time : toy_token "uD" 100 ≠ toy_token "uD" 160.
Proof. by vm_compute. Qed.

(** X16: registration keeps the emails of the stored users distinct:
    if they are distinct before [registerUser] they are distinct after
    it, and a request whose email a stored user already has is answered
    400 and stores nothing. *)
Theorem registered_emails_stay_distinct
    (bcrypt_hash : string → string → string)
    (jwt_sign : string → nat → string)
    (new_id salt captured : string) (now : nat) (body : Body) (db : Store) :
  NoDup (Rest.email <$> user_docs db) →
  ∃ reply db',
    registerUser bcrypt_hash jwt_sign new_id salt captured now body db =
      (reply, db') ∧
    NoDup (Rest.email <$> user_docs db') ∧
    (∀ e, body !! "email" = Some e → e ∈ Rest.email <$> user_docs db →
       status_of reply = 400 ∧ db' = db).
Proof.
  intros Hnd. unfold registerUser.
  destruct (absent (body !! "name") || absent (body !! "email") ||
            absent (body !! "password")) eqn:Habs.
  { eexists _, _. split; [done|]. split; [done|]. done. }
  apply orb_false_elim in Habs as [Habs _].
  apply orb_false_elim in Habs as [_ (e & He & _)%absent_false].
  rewrite He. simpl.
  destruct (List.find _ (user_docs db)) as [u|] eqn:Hfind.
  { eexists _, _. split; [done|]. split; [done|]. done. }
  apply find_None_Forall in Hfind.
  assert (Hfresh : e ∉ Rest.email <$> user_docs db).
  { intros (u & -> & Hu)%list_elem_of_fmap.
    rewrite Forall_forall in Hfind. specialize (Hfind u Hu).
    by rewrite String.eqb_refl in Hfind. }
  eexists _, _. split; [done|]. simpl. split.
  - rewrite fmap_app. apply NoDup_app. split; [done|]. split.
    + intros x Hx. simpl. rewrite list_elem_of_singleton. by intros ->.
    + simpl. apply NoDup_singleton.
  - intros e' [= <-] Hin. done.
Qed.

Lemma registered_emails_stay_distinct_witness :
  let body : Body :=
    {[ "name" := "Ann"; "email" := "ann@example.com";
       "password" := "secret" ]} in
  ∃ reply db',
    registerUser toy_hash toy_token "uD" "salt" "" 100 body toy_store =
      (reply, db') ∧
    NoDup (Rest.email <$> user_docs db') ∧
    (∀ e, body !! "email" = Some e → e ∈ Rest.email <$> user_docs toy_store →
       status_of reply = 400 ∧ db' = toy_store).
Proof.
  apply (registered_emails_stay_distinct toy_hash toy_token "uD" "salt" ""
           100).
  apply (bool_decide_unpack _). vm_compute. exact I.
Defined.

(** ** Chats *)

Lemma chats_between_comm db a b : chats_between db a b = chats_between db b a.
Proof.
  unfold chats_between. apply List.filter_ext. intros c.
  by rewrite <-!andb_assoc, (andb_comm (bool_decide (a ∈ _))).
Qed.

Lemma chats_between_head db a b c rest :
  chats_between db a b = c :: rest →
  isGroupChat c = false ∧ a ∈ chat_users c ∧ b ∈ chat_users c.
Proof.
  intros Heq.
  assert (Hin : In c (chats_between db a b)) by (rewrite Heq; by left).
  apply List.filter_In in Hin as [_ Hc].
  apply andb_prop in Hc as [[Hg Ha]%andb_prop Hb].
  apply negb_true_iff in Hg.
  by apply bool_decide_eq_true in Ha, Hb.
Qed.

(** X17: [accessChat] does not make a second chat for a pair of users.
    Whether it finds the chat or creates it (under an id no stored chat
    has), it answers 200 with a one-to-one chat both users are in, and
    asking again, from either of the two users, answers with that same
    chat and leaves the store as it is. *)
Theorem accessChat_does_not_duplicate (new_id id2 : string)
    (me other : UserDoc) (db : Store) :
  Forall (λ c, cid c ≠ new_id) (chat_docs db) →
  ∃ chat users1 latest1 db1,
    accessChat new_id me (user_id other) db =
      (Replied 200 (ChatInfo (mkFullChat chat users1 None latest1)), db1) ∧
    isGroupChat chat = false ∧
    user_id me ∈ chat_users chat ∧ user_id other ∈ chat_users chat ∧
    (∃ users2 latest2,
        accessChat id2 me (user_id other) db1 =
          (Replied 200 (ChatInfo (mkFullChat chat users2 None latest2)),
           db1)) ∧
    (∃ users3 latest3,
        accessChat id2 other (user_id me) db1 =
          (Replied 200 (ChatInfo (mkFullChat chat users3 None latest3)),
           db1)).
Proof.
  intros Hfresh. unfold accessChat at 1.
  destruct (chats_between db (user_id me) (user_id other))
    as [|c rest] eqn:Hfound.
  - set (created := mkChatDoc new_id "sender" false
                      [user_id me; user_id other] None None).
    set (db1 := mkStore (user_docs db) (chat_docs db ++ [created])
                  (message_docs db)).
    assert (Hby : chat_by_id db1 new_id = Some created).
    { unfold chat_by_id, db1; simpl. rewrite find_app_None.
      - simpl. by rewrite String.eqb_refl.
      - apply find_None_Forall. eapply Forall_impl; [exact Hfresh|].
        intros c Hc. by apply String.eqb_neq. }
    assert (Hnow : chats_between db1 (user_id me) (user_id other) = [created]).
    { unfold chats_between in *. unfold db1; simpl.
      rewrite List.filter_app, Hfound. simpl.
      rewrite !bool_decide_eq_true_2; [done|set_solver..]. }
    exists created, (populate_users db1 (chat_users created)), None, db1.
    split.
    { unfold chat_with_users. fold created. fold db1. by rewrite Hby. }
    split; [done|]. split; [set_solver|]. split; [set_solver|]. split.
    + unfold accessChat. rewrite Hnow. by eexists _, _.
    + unfold accessChat. rewrite chats_between_comm, Hnow. by eexists _, _.
  - destruct (chats_between_head _ _ _ _ _ Hfound) as (Hg & Hme & Hother).
    eexists c, _, _, db. split; [done|]. split; [done|].
    split; [done|]. split; [done|]. split.
    + unfold accessChat. rewrite Hfound. by eexists _, _.
    + unfold accessChat. rewrite chats_between_comm, Hfound. by eexists _, _.
Qed.

Lemma accessChat_does_not_duplicate_witness :
  ∃ chat users1 latest1 db1,
    accessChat "chat9" ann (user_id bob) toy_store =
      (Replied 200 (ChatInfo (mkFullChat chat users1 None latest1)), db1) ∧
    isGroupChat chat = false ∧
    user_id ann ∈ chat_users chat ∧ user_id bob ∈ chat_users chat ∧
    (∃ users2 latest2,
        accessChat "chat10" ann (user_id bob) db1 =
          (Replied 200 (ChatInfo (mkFullChat chat users2 None latest2)),
           db1)) ∧
    (∃ users3 latest3,
        accessChat "chat10" bob (user_id ann) db1 =
          (Replied 200 (ChatInfo (mkFullChat chat users3 None latest3)),
           db1)).
Proof.
  apply (accessChat_does_not_duplicate "chat9" "chat10" ann bob toy_store).
  apply (bool_decide_unpack _). vm_compute. exact I.
Defined.

(** X18: [createGroupChat] either stores exactly one new chat or
    nothing.  When it answers 200 the store has gained one group chat
    whose users are the ids parsed from the request, at least two,
    followed by the creator, who is also the admin and is added even if
    already listed; every other answer is a 400 or a 500 and leaves the
    store as it was. *)
Theorem group_chat_has_creator_last
    (JSON_parse : string → Result (list string)) (new_id : string)
    (me : UserDoc) (body : Body) (db : Store) :
  ∃ reply db', createGroupChat JSON_parse new_id me body db = (reply, db') ∧
    ((status_of reply = 200 ∧
      ∃ name text users,
        body !! "name" = Some name ∧ body !! "users" = Some text ∧
        JSON_parse text = Ok users ∧ 2 ≤ length users ∧
        db' = mkStore (user_docs db)
                (chat_docs db ++
                 [mkChatDoc new_id name true (users ++ [user_id me])
                    (Some (user_id me)) None])
                (message_docs db)) ∨
     ((status_of reply = 400 ∨ status_of reply = 500) ∧ db' = db)).
Proof.
  unfold createGroupChat.
  destruct (absent (body !! "users") || absent (body !! "name")) eqn:Habs.
  { eexists _, _. split; [done|]. right. split; [by left|done]. }
  apply orb_false_elim in Habs
    as [(text & Ht & _)%absent_false (name & Hn & _)%absent_false].
  rewrite Ht, Hn; simpl.
  destruct (JSON_parse text) as [users|err] eqn:Hparse.
  - destruct (Nat.ltb_spec (length users) 2).
    + eexists _, _. split; [done|]. right. split; [by left|done].
    + eexists _, _. split; [done|]. left. split; [done|].
      by exists name, text, users.
  - eexists _, _. split; [done|]. right. split; [by right|done].
Qed.

Lemma chat_by_id_update db id f users' msgs :
  (∀ c, cid (f c) = cid c) →
  chat_by_id (mkStore users' (update_chat id f (chat_docs db)) msgs) id =
    f <$> chat_by_id db id.
Proof.
  intros Hf. unfold chat_by_id; simpl.
  induction (chat_docs db) as [|c rest IH]; simpl; [done|].
  destruct (String.eqb (cid c) id) eqn:Hc; simpl.
  - by rewrite Hf, Hc.
  - by rewrite Hc.
Qed.

(** X19: adding a user to a chat appends an entry even when the user is
    already listed, and removing a user removes every entry for it: for
    a stored chat, [addToGroup] then [removeFromGroup] of the same user
    both answer 200 and leave the chat with the entries it had for the
    other users, in order, and none for that user. *)
Theorem added_then_removed_is_gone (chatId userId : string)
    (chat : ChatDoc) (db : Store) :
  chat_by_id db chatId = Some chat →
  ∃ r1 db1 r2 db2 c1 c2,
    addToGroup chatId userId db = (r1, db1) ∧
    removeFromGroup chatId userId db1 = (r2, db2) ∧
    status_of r1 = 200 ∧ status_of r2 = 200 ∧
    chat_by_id db1 chatId = Some c1 ∧
    chat_users c1 = chat_users chat ++ [userId] ∧
    chat_by_id db2 chatId = Some c2 ∧
    chat_users c2 = List.filter (λ u, negb (String.eqb u userId))
                      (chat_users chat) ∧
    userId ∉ chat_users c2.
Proof.
  intros Hchat.
  set (keep := λ u, negb (String.eqb u userId)).
  set (db1 := mkStore (user_docs db)
                (update_chat chatId (set_users (λ us, us ++ [userId]))
                   (chat_docs db))
                (message_docs db)).
  set (c1 := set_users (λ us, us ++ [userId]) chat).
  assert (H1 : chat_by_id db1 chatId = Some c1).
  { unfold db1. rewrite chat_by_id_update by done. by rewrite Hchat. }
  set (db2 := mkStore (user_docs db1)
                (update_chat chatId (set_users (List.filter keep))
                   (chat_docs db1))
                (message_docs db1)).
  set (c2 := set_users (List.filter keep) c1).
  assert (H2 : chat_by_id db2 chatId = Some c2).
  { unfold db2. rewrite chat_by_id_update by done. by rewrite H1. }
  exists (Replied 200 (ChatInfo (full_chat db1 c1))), db1,
         (Replied 200 (ChatInfo (full_chat db2 c2))), db2, c1, c2.
  split; [unfold addToGroup; cbv zeta; fold db1; by rewrite H1|].
  split; [unfold removeFromGroup; cbv zeta; fold keep; fold db2;
          by rewrite H2|].
  split; [done|]. split; [done|]. split; [done|]. split; [done|].
  split; [done|].
  assert (Hus : chat_users c2 = List.filter keep (chat_users chat)).
  { simpl. rewrite List.filter_app. simpl. unfold keep at 2.
    rewrite String.eqb_refl. simpl. by rewrite app_nil_r. }
  split; [done|]. rewrite Hus.
  rewrite list_elem_of_In, List.filter_In. intros [_ Hne].
  unfold keep in Hne. by rewrite String.eqb_refl in Hne.
Qed.

Lemma added_then_removed_is_gone_witness :
  ∃ r1 db1 r2 db2 c1 c2,
    addToGroup "room1" "uB" toy_store = (r1, db1) ∧
    removeFromGroup "room1" "uB" db1 = (r2, db2) ∧
    status_of r1 = 200 ∧ status_of r2 = 200 ∧
    chat_by_id db1 "room1" = Some c1 ∧
    chat_users c1 = chat_users room1 ++ ["uB"] ∧
    chat_by_id db2 "room1" = Some c2 ∧
    chat_users c2 = List.filter (λ u, negb (String.eqb u "uB"))
                      (chat_users room1) ∧
    "uB" ∉ chat_users c2.
Proof.
  apply (added_then_removed_is_gone "room1" "uB" room1 toy_store).
  reflexivity.
Defined.

(** ** From the input box to the other clients *)

Lemma truthy_nonempty t : t ≠ "" → truthy t = true.
Proof. intros Ht%String.eqb_neq. unfold truthy. by rewrite Ht. Qed.

(** What the two controllers do with a body that carries both fields. *)
Lemma sendMessage_stores castable validation_message new_id captured me
    body db content chatId :
  body !! "content" = Some content → body !! "chatId" = Some chatId →
  content ≠ "" → chatId ≠ "" → castable chatId = true →
  sendMessage castable validation_message new_id captured me body db =
    (Failed (mkError "message.populate(...).execPopulate is not a function"
               captured) 200,
     mkStore (user_docs db) (chat_docs db)
       (message_docs db ++
        [mkMessageDoc new_id (user_id me) content chatId])).
Proof.
  intros Hc Hid Hc' Hid' Hcast. unfold sendMessage, absent.
  rewrite Hc, Hid. simpl. by rewrite !truthy_nonempty, Hcast.
Qed.

Lemma sendMessage_rejects castable validation_message new_id captured me
    body db content chatId :
  body !! "content" = Some content → body !! "chatId" = Some chatId →
  content ≠ "" → chatId ≠ "" → castable chatId = false →
  sendMessage castable validation_message new_id captured me body db =
    (Failed (mkError (validation_message chatId) captured) 200, db).
Proof.
  intros Hc Hid Hc' Hid' Hcast. unfold sendMessage, absent.
  rewrite Hc, Hid. simpl. by rewrite !truthy_nonempty, Hcast.
Qed.

Lemma Interview_sendMessage_stores castable validation_message new_id me
    body db content chatId :
  body !! "content" = Some content → body !! "chatId" = Some chatId →
  content ≠ "" → chatId ≠ "" → castable chatId = true →
  Interview.sendMessage castable validation_message new_id me body db =
    (Replied 200
       (MessageInfo
          (mkFullMessage new_id
             ((λ u, mkSenderInfo (user_id u) (name u) (pic u)) <$>
                user_by_id db (user_id me))
             content
             ((λ c, (c, populate_users db (chat_users c))) <$>
                chat_by_id db chatId))),
     mkStore (user_docs db)
       (update_chat chatId (set_latest new_id) (chat_docs db))
       (message_docs db ++
        [mkMessageDoc new_id (user_id me) content chatId])).
Proof.
  intros Hc Hid Hc' Hid' Hcast. unfold Interview.sendMessage, absent.
  rewrite Hc, Hid. simpl. by rewrite !truthy_nonempty, Hcast.
Qed.

Lemma post_body_HEAD newMessage chatId :
  post_body HEAD newMessage chatId !! "content" = Some newMessage ∧
  post_body HEAD newMessage chatId !! "chatId" = Some chatId.
Proof.
  unfold post_body. split.
  - apply lookup_insert_eq.
  - rewrite (lookup_insert_ne _ "content" "chatId") by done.
    apply lookup_singleton_eq.
Qed.

(** A request that succeeds carries a message, with either controller. *)
Lemma success_carries_message castable validation_message controller new_id
    captured me body db p :
  axios_data (post_message castable validation_message controller new_id
                captured me body db).1 = Some p →
  ∃ m, p = MessageInfo m.
Proof.
  destruct controller; simpl.
  - unfold sendMessage. by repeat case_match.
  - unfold Interview.sendMessage. repeat case_match; try done.
    simpl. intros [= <-]. eauto.
Qed.

(** X20: on the Coding11-12 side no message can be sent.  Its request
    body names the chat under the key ["chatID"], both controllers read
    ["chatId"], so every post is answered 400; nothing is stored,
    nothing is emitted on the socket and the message list of the client
    stays as it was, whatever the key pressed and the text. *)
Theorem wrong_body_key_sends_nothing (castable : string → bool)
    (validation_message : string → string) (controller : Controller)
    (new_id captured : string) (me : UserDoc)
    (key newMessage selectedChat_id : string) (c : Client) (db : Store) :
  frontend_send castable validation_message Coding11_12 controller new_id
    captured me key newMessage selectedChat_id c db = (c, db, []) ∧
  sendMessage castable validation_message new_id captured me
    (post_body Coding11_12 newMessage selectedChat_id) db =
    (Replied 400 (Plain (JStr "Bad Request")), db) ∧
  Interview.sendMessage castable validation_message new_id me
    (post_body Coding11_12 newMessage selectedChat_id) db =
    (Replied 400 (Plain (message_body "Invalid data")), db).
Proof.
  assert (Hkey : post_body Coding11_12 newMessage selectedChat_id !! "chatId"
                 = None).
  { unfold post_body.
    rewrite (lookup_insert_ne _ "content" "chatId") by done.
    by rewrite lookup_singleton_ne. }
  assert (Hpost : sendMessage castable validation_message new_id captured me
                    (post_body Coding11_12 newMessage selectedChat_id) db =
                  (Replied 400 (Plain (JStr "Bad Request")), db)).
  { unfold sendMessage. rewrite Hkey. simpl. by rewrite orb_true_r. }
  assert (Hpost' : Interview.sendMessage castable validation_message new_id me
                     (post_body Coding11_12 newMessage selectedChat_id) db =
                   (Replied 400 (Plain (message_body "Invalid data")), db)).
  { unfold Interview.sendMessage. rewrite Hkey. simpl. by rewrite orb_true_r. }
  split; [|done]. unfold frontend_send, post_message.
  destruct (String.eqb key "Enter" && truthy newMessage); [|done].
  destruct controller; by rewrite ?Hpost, ?Hpost'.
Qed.




(** X24: with the same controller, a message posted for a chat id that
    can be cast and that no stored chat has ends the socket server.  The
    controller stores the message and answers 200 with the chat
    populated as [null]; the frontend appends that data to its list and
    emits it; the ['new message'] listener reads [chat.users] of [null]
    and throws, and since nothing catches the [TypeError] no further
    input is handled. *)
Theorem post_to_unknown_chat_ends_the_server (castable : string → bool)
    (validation_message : string → string) (tr rest : list Input)
    (st : Server) (s : SocketId) (new_id captured : string) (me : UserDoc)
    (newMessage chatId : string) (c : Client) (db : Store) :
  newMessage ≠ "" → chatId ≠ "" → castable chatId = true →
  chat_by_id db chatId = None →
  run tr init = Normal tt st → connected st s →
  ∃ data db',
    frontend_send castable validation_message HEAD OfExamples new_id captured
      me "Enter" newMessage chatId c db =
      (mkClient (messages c ++ [data]) (socketConnected c) (isTyping c)
         (selectedChatCompare c),
       db', [Unlistened "stop typing"; NewMessage (Some data)]) ∧
    Received.chat data = None ∧
    message_docs db' =
      message_docs db ++ [mkMessageDoc new_id (user_id me) newMessage chatId] ∧
    run ((Emit s <$> [Unlistened "stop typing"; NewMessage (Some data)])
         ++ rest) st =
      Thrown (TypeError "users") st.
Proof.
  intros Htext Hchat_id Hcast Hchat Hrun Hs.
  destruct (post_body_HEAD newMessage chatId) as [Hb1 Hb2].
  eexists _, _. split; [|split; [|split]].
  - unfold frontend_send, post_message. simpl.
    rewrite (truthy_nonempty newMessage) by done.
    rewrite (Interview_sendMessage_stores _ _ _ _ _ _ newMessage chatId)
      by done.
    rewrite Hchat. reflexivity.
  - done.
  - done.
  - assert (H1 : step (Emit s (Unlistened "stop typing")) st = Normal tt st).
    { unfold step. by rewrite decide_True. }
    rewrite !fmap_cons, fmap_nil. simpl app.
    rewrite (run_step _ _ _ _ H1), run_cons.
    unfold step. by rewrite decide_True.
Qed.

Lemma post_to_unknown_chat_ends_the_server_witness :
  let st := final Ex.set_up in
  let c := mkClient [] true false None in
  ∃ data db',
    frontend_send toy_castable toy_message HEAD OfExamples "m1" "" ann
      "Enter" "hello" "room9" c toy_store =
      (mkClient (messages c ++ [data]) (socketConnected c) (isTyping c)
         (selectedChatCompare c),
       db', [Unlistened "stop typing"; NewMessage (Some data)]) ∧
    Received.chat data = None ∧
    message_docs db' =
      message_docs toy_store ++ [mkMessageDoc "m1" "uA" "hello" "room9"] ∧
    run ((Emit "A" <$> [Unlistened "stop typing"; NewMessage (Some data)])
         ++ [Emit "B" (JoinChat "room1")]) st =
      Thrown (TypeError "users") st.
Proof.
  apply (post_to_unknown_chat_ends_the_server toy_castable toy_message
           Ex.set_up [Emit "B" (JoinChat "room1")] (final Ex.set_up) "A" "m1"
           "" ann "hello" "room9" (mkClient [] true false None) toy_store).
  - done.
  - done.
  - reflexivity.
  - reflexivity.
  - vm_compute. reflexivity.
  - decide_by_computation.
Defined.

(** X25: on the HEAD side, with the message controller of the project,
    a message typed into the input box is never sent on, and it is
    stored when its chat id can be cast.  Enter with a non-empty text
    makes the controller create the message and then throw on
    [execPopulate], or throw already in creating it: the answer is a
    500, the chat's [latestMessage] stays as it was, and the frontend,
    whose request failed, emits nothing but ["stop typing"] and leaves
    its message list as it was. *)
Theorem project_post_is_stored_but_not_sent (castable : string → bool)
    (validation_message : string → string) (new_id captured : string)
    (me : UserDoc) (newMessage chatId : string) (c : Client) (db : Store) :
  newMessage ≠ "" → chatId ≠ "" →
  ∃ reply db',
    sendMessage castable validation_message new_id captured me
      (post_body HEAD newMessage chatId) db = (reply, db') ∧
    status_of reply = 500 ∧
    user_docs db' = user_docs db ∧
    message_docs db' =
      message_docs db ++
      (if castable chatId
       then [mkMessageDoc new_id (user_id me) newMessage chatId] else []) ∧
    chat_docs db' = chat_docs db ∧
    frontend_send castable validation_message HEAD OfProject new_id captured
      me "Enter" newMessage chatId c db =
      (c, db', [Unlistened "stop typing"]).
Proof.
  intros Htext Hchat_id.
  destruct (post_body_HEAD newMessage chatId) as [Hb1 Hb2].
  assert (Hpost : ∃ message,
            sendMessage castable validation_message new_id captured me
              (post_body HEAD newMessage chatId) db =
            (Failed (mkError message captured) 200,
             mkStore (user_docs db) (chat_docs db)
               (message_docs db ++
                (if castable chatId
                 then [mkMessageDoc new_id (user_id me) newMessage chatId]
                 else [])))).
  { destruct (castable chatId) eqn:Hcast.
    - eexists.
      by apply (sendMessage_stores _ _ _ _ _ _ _ newMessage chatId).
    - eexists.
      rewrite (sendMessage_rejects _ _ _ _ _ _ _ newMessage chatId) by done.
      rewrite app_nil_r. by destruct db. }
  destruct Hpost as [message Hpost].
  eexists _, _. split; [exact Hpost|].
  split; [done|]. split; [done|]. split; [done|]. split; [done|].
  unfold frontend_send, post_message. rewrite Hpost. simpl.
  by rewrite (truthy_nonempty newMessage).
Qed.

Lemma project_post_is_stored_but_not_sent_witness :
  let c := mkClient [] true false None in
  ∃ reply db',
    sendMessage toy_castable toy_message "m1" "" ann
      (post_body HEAD "hello" "room1") toy_store = (reply, db') ∧
    status_of reply = 500 ∧
    user_docs db' = user_docs toy_store ∧
    message_docs db' =
      message_docs toy_store ++ [mkMessageDoc "m1" "uA" "hello" "room1"] ∧
    chat_docs db' = chat_docs toy_store ∧
    frontend_send toy_castable toy_message HEAD OfProject "m1" "" ann
      "Enter" "hello" "room1" c toy_store =
      (c, db', [Unlistened "stop typing"]).
Proof.
  apply (project_post_is_stored_but_not_sent toy_castable toy_message "m1" ""
           ann "hello" "room1" (mkClient [] true false None) toy_store).
  - done.
  - done.
Defined.

(** ** Sending, then fetching *)

(** X22: a message that either message controller has stored, its chat
    id being one that can be cast, is the last one the next
    [allMessages] of its chat returns, also when the
    post itself was answered with an error, as every post to the
    controller of the project is: the documents fetched after the post
    are those fetched before it followed by the new message, with the
    signed-in user as sender, and [allMessages] returns messages of the
    requested chat only. *)
Theorem sent_message_is_fetched_last (castable : string → bool)
    (validation_message cast_message : string → string)
    (controller : Controller) (new_id captured : string) (me : UserDoc)
    (content chatId : string) (body : Body) (db : Store) :
  body !! "content" = Some content → body !! "chatId" = Some chatId →
  content ≠ "" → chatId ≠ "" → castable chatId = true →
  ∃ reply db' before after,
    post_message castable validation_message controller new_id captured me
      body db = (reply, db') ∧
    status_of reply =
      match controller with OfProject => 500 | OfExamples => 200 end ∧
    allMessages castable cast_message captured chatId db =
      (Replied 200 (MessageList before), db) ∧
    allMessages castable cast_message captured chatId db' =
      (Replied 200 (MessageList after), db') ∧
    fd_doc <$> after =
      (fd_doc <$> before) ++
      [mkMessageDoc new_id (user_id me) content chatId] ∧
    Forall (λ f, msg_chat (fd_doc f) = chatId) after.
Proof.
  intros Hc Hid Hc' Hid' Hcast.
  set (msg := mkMessageDoc new_id (user_id me) content chatId).
  assert (Hpost : ∃ reply db',
            post_message castable validation_message controller new_id
              captured me body db = (reply, db') ∧
            status_of reply =
              match controller with OfProject => 500 | OfExamples => 200 end ∧
            message_docs db' = message_docs db ++ [msg]).
  { destruct controller; simpl.
    - rewrite (sendMessage_stores _ _ _ _ _ _ _ content chatId) by done.
      by eexists _, _.
    - rewrite (Interview_sendMessage_stores _ _ _ _ _ _ content chatId)
        by done.
      by eexists _, _. }
  destruct Hpost as (reply & db' & Hpost & Hstatus & Hdocs).
  exists reply, db'. eexists _, _.
  unfold allMessages. rewrite Hcast. cbn [negb].
  split; [done|]. split; [done|].
  split; [reflexivity|]. split; [reflexivity|].
  split.
  - rewrite Hdocs.
    rewrite List.filter_app, !fmap_app, <-!list_fmap_compose.
    cbn [List.filter msg_chat msg]. rewrite String.eqb_refl. done.
  - apply Forall_fmap, Forall_forall. intros m Hm.
    apply list_elem_of_In, List.filter_In in Hm as [_ Hm]. simpl.
    by apply String.eqb_eq.
Qed.

Lemma sent_message_is_fetched_last_witness :
  ∃ reply db' before after,
    post_message toy_castable toy_message OfProject "m1" "" ann
      (post_body HEAD "hello" "room1") toy_store = (reply, db') ∧
    status_of reply = 500 ∧
    allMessages toy_castable toy_message "" "room1" toy_store =
      (Replied 200 (MessageList before), toy_store) ∧
    allMessages toy_castable toy_message "" "room1" db' =
      (Replied 200 (MessageList after), db') ∧
    fd_doc <$> after =
      (fd_doc <$> before) ++ [mkMessageDoc "m1" (user_id ann) "hello" "room1"] ∧
    Forall (λ f, msg_chat (fd_doc f) = "room1") after.
Proof.
  apply (sent_message_is_fetched_last toy_castable toy_message toy_message
           OfProject "m1" "" ann "hello" "room1"
           (post_body HEAD "hello" "room1") toy_store).
  - vm_compute. reflexivity.
  - vm_compute. reflexivity.
  - done.
  - done.
  - reflexivity.
Defined.

End ApiFacts.
